(** * bbPasswordCheck: the first-boot password policy of the BeaglePlay image

    A shallow embedding of [bbPasswordCheckv4.py] and the properties of its
    password-strength engine, its dictionary loader and its session loop.

    Conventions of the embedding.
    - A Python [str] is a [string]; a character is a code point below 256
      (the Latin-1 block), which covers every character the policy tells
      apart.  [str.lower], [str.strip] and the regular-expression classes are
      the ones of Python restricted to that block.  Outside that block
      [str.lower] depends on the position of a character and can change the
      length of a text, so no statement below relies on lowercasing
      commuting with concatenation or reversal: the statements speak of
      the lowercased password as a text of its own.
    - A Python [set] of words that the code iterates over is the [list] of
      its members in the order in which the set object yields them; the
      theorems hold for every such order.  The set built by the loader is a
      [gset].
    - The dictionary [LEET_MAP] is a [gmap].
    - An exception is a value of [exn]; code that can raise returns a
      [result]; code that prints, prompts or spawns a process threads a
      [world]. *)

From Stdlib Require Import Ascii String List Arith Lia Bool.
From Stdlib Require Import DecimalString.
From stdpp Require Import base tactics option list strings gmap.

Local Open Scope bool_scope.

(** ** Exceptions and results *)

Inductive exn : Type :=
  | KeyError (key : ascii)
  | NameError (name : string)
  | TypeError
  | EOFError
  | FileNotFoundError (path : string)
  | PermissionError (path : string)
  | IsADirectoryError (path : string)
  | SystemExit (code : nat).

Inductive result (A : Type) : Type :=
  | Ok (a : A)
  | Raise (e : exn).
Arguments Ok {A} a.
Arguments Raise {A} e.

Definition rbind {A B : Type} (r : result A) (k : A -> result B) : result B :=
  match r with
  | Ok a => k a
  | Raise e => Raise e
  end.

Notation "'try!' x := r 'in' k" := (rbind r (fun x => k))
  (at level 10, x name, r at level 100, k at level 200).

(** ** Strings as the code uses them *)

Module Str.

Definition nl : ascii := "010"%char.

Fixpoint len (s : string) : nat :=
  match s with
  | EmptyString => 0
  | String _ s' => S (len s')
  end.

Fixpoint app (s t : string) : string :=
  match s with
  | EmptyString => t
  | String c s' => String c (app s' t)
  end.

Definition snoc (s : string) (c : ascii) : string := app s (String c EmptyString).

(** [s[::-1]] *)
Fixpoint rev (s : string) : string :=
  match s with
  | EmptyString => EmptyString
  | String c s' => snoc (rev s') c
  end.

Fixpoint map (f : ascii -> ascii) (s : string) : string :=
  match s with
  | EmptyString => EmptyString
  | String c s' => String (f c) (map f s')
  end.

Fixpoint any (p : ascii -> bool) (s : string) : bool :=
  match s with
  | EmptyString => false
  | String c s' => p c || any p s'
  end.

(** [t.startswith(w)] *)
Fixpoint starts (w t : string) : bool :=
  match w, t with
  | EmptyString, _ => true
  | String _ _, EmptyString => false
  | String a w', String b t' => if Ascii.eqb a b then starts w' t' else false
  end.

(** [w in s]: [w] starts at some offset of [s]. *)
Fixpoint isin (w s : string) : bool :=
  starts w s ||
  match s with
  | EmptyString => false
  | String _ s' => isin w s'
  end.

(** [s[i:i+l]], also when the slice leaves the string. *)
Fixpoint slice (i l : nat) (s : string) : string :=
  match i, l, s with
  | _, _, EmptyString => EmptyString
  | O, O, _ => EmptyString
  | O, S l', String c s' => String c (slice 0 l' s')
  | S i', _, String _ s' => slice i' l s'
  end.

(** The first [k] characters. *)
Definition take (k : nat) (s : string) : string := slice 0 k s.

Definition code (c : ascii) : nat := nat_of_ascii c.

Definition between (lo hi : nat) (c : ascii) : bool :=
  (lo <=? code c) && (code c <=? hi).

(** [str.lower] on one code point: A-Z, and the capital letters of the
    Latin-1 block (0xC0-0xDE without the multiplication sign 0xD7). *)
Definition lower_char (c : ascii) : ascii :=
  if between 65 90 c || (between 192 222 c && negb (code c =? 215))
  then ascii_of_nat (code c + 32)
  else c.

Definition lower (s : string) : string := map lower_char s.

(** [str.isspace] on one code point. *)
Definition is_space (c : ascii) : bool :=
  between 9 13 c || between 28 32 c || (code c =? 133) || (code c =? 160).

Fixpoint lstrip (s : string) : string :=
  match s with
  | EmptyString => EmptyString
  | String c s' => if is_space c then lstrip s' else s
  end.

Fixpoint rstrip (s : string) : string :=
  match s with
  | EmptyString => EmptyString
  | String c s' =>
      match rstrip s' with
      | EmptyString => if is_space c then EmptyString else String c EmptyString
      | r => String c r
      end
  end.

(** [s.strip()] *)
Definition strip (s : string) : string := rstrip (lstrip s).

(** [str(n)] for a natural number. *)
Definition of_nat (n : nat) : string := NilEmpty.string_of_uint (Nat.to_uint n).

End Str.

Infix "+++" := Str.app (at level 60, right associativity).

(** ** Configurable password settings *)

Definition MARKER : string := "/home/bbuser/.bb_password_done".
Definition MIN_LENGTH : nat := 12.
Definition MIN_DICT_WORD_LEN : nat := 4.
Definition MAX_LEET_SUBSTITUTION : nat := 2.

Definition DEFAULT_DICT_FILES : list string := ["/usr/share/dict/cracklib-small"].

Definition LEET_MAP : gmap ascii ascii :=
  list_to_map
    [ ("0", "o"); ("1", "l"); ("3", "e"); ("4", "a"); ("5", "s"); ("7", "t");
      ("@", "a"); ("$", "s"); ("!", "i"); ("9", "g") ]%char.

(** [ch in LEET_MAP] *)
Definition leet_has (ch : ascii) : bool := bool_decide (is_Some (LEET_MAP !! ch)).

(** [LEET_MAP[ch]] *)
Definition leet_get (ch : ascii) : result ascii :=
  match LEET_MAP !! ch with
  | Some v => Ok v
  | None => Raise (KeyError ch)
  end.

(** ** obvious_patterns *)

(** [re.search(r"(.)\1\1\1", pw)]: the dot matches every character but the
    line feed; the search tries each offset from the left. *)
Definition dot (c : ascii) : bool := negb (Ascii.eqb c Str.nl).

Definition four_at (s : string) : bool :=
  match s with
  | String a (String b (String c (String d _))) =>
      dot a && Ascii.eqb b a && Ascii.eqb c a && Ascii.eqb d a
  | _ => false
  end.

Fixpoint search_repeat (s : string) : bool :=
  four_at s ||
  match s with
  | EmptyString => false
  | String _ s' => search_repeat s'
  end.

Definition repeat_issue : string := "Password contains 4+ repeated characters".

Definition weak_issue (chunk : string) : string :=
  "Password contains weak sequence '" +++ chunk +++ "'".

(** The list literal of the source has no commas between its four string
    literals, so Python joins them: the list has one element. *)
Definition sequences : list string :=
  [ "abcdefghijklmnopqrstuvwxyz" +++
    "qwertyuiopasdfghjklzxcvbnm" +++
    "1234567890" +++
    "password" ].

(** The innermost loop: [for i in range(len(seq) - l + 1)], left at the
    first chunk found. *)
Fixpoint scan_windows (pw seq : string) (l : nat) (offsets : list nat) : list string :=
  match offsets with
  | [] => []
  | i :: rest =>
      let chunk := Str.slice i l seq in
      if Str.isin chunk pw || Str.isin (Str.rev chunk) pw
      then [weak_issue chunk]
      else scan_windows pw seq l rest
  end.

Definition window_range (seq : string) (l : nat) : list nat :=
  List.seq 0 (Str.len seq + 1 - l).

Definition scan_sequence (pw seq : string) : list string :=
  flat_map (fun l => scan_windows pw seq l (window_range seq l)) [4; 5].

Definition obvious_patterns (password : string) : list string :=
  let pw := Str.lower password in
  let issues := if search_repeat pw then [repeat_issue] else [] in
  issues ++ flat_map (scan_sequence pw) sequences.

(** ** contains_dictionary *)

Definition word_msg (w : string) : string := "contains dictionary word '" +++ w +++ "'".

Definition reversed_msg (w : string) : string :=
  "contains reversed dictionary word '" +++ w +++ "'".

(** The first loop: words shorter than [MIN_DICT_WORD_LEN] are passed over. *)
Fixpoint scan_verbatim (lower : string) (wordset : list string) : option string :=
  match wordset with
  | [] => None
  | w :: rest =>
      if Str.len w <? MIN_DICT_WORD_LEN then scan_verbatim lower rest
      else if Str.isin w lower then Some w
      else scan_verbatim lower rest
  end.

(** [for w in wordset: if w in text: return ...], as the second loop and the
    loop inside the leet walk have it: no test of the word's length. *)
Fixpoint scan_words (text : string) (wordset : list string) : option string :=
  match wordset with
  | [] => None
  | w :: rest => if Str.isin w text then Some w else scan_words text rest
  end.

(** One character of the leet walk: the new [normalized] and [leet_changes]. *)
Definition leet_step (normalized : string) (leet_changes : nat) (ch : ascii)
  : result (string * nat) :=
  if leet_has ch
  then try! v := leet_get ch in Ok (Str.snoc normalized v, leet_changes + 1)
  else Ok (Str.snoc normalized ch, leet_changes).

(** The third loop, [for ch in lower], from a given [normalized] and
    [leet_changes]. *)
Fixpoint scan_leet (wordset : list string) (normalized : string) (leet_changes : nat)
    (rest : string) : result (bool * string) :=
  match rest with
  | EmptyString => Ok (false, EmptyString)
  | String ch rest' =>
      try! st := leet_step normalized leet_changes ch in
      let normalized := fst st in
      let leet_changes := snd st in
      if leet_changes <=? MAX_LEET_SUBSTITUTION then
        match scan_words normalized wordset with
        | Some w => Ok (true, word_msg w)
        | None => scan_leet wordset normalized leet_changes rest'
        end
      else scan_leet wordset normalized leet_changes rest'
  end.

Definition contains_dictionary (pw : string) (wordset : list string)
  : result (bool * string) :=
  let lower := Str.lower pw in
  match scan_verbatim lower wordset with
  | Some w => Ok (true, word_msg w)
  | None =>
      let rev := Str.rev lower in
      match scan_words rev wordset with
      | Some w => Ok (true, reversed_msg w)
      | None => scan_leet wordset EmptyString 0 lower
      end
  end.

(** ** check_password_strength *)

Definition too_short : string :=
  "Password too short (min " +++ Str.of_nat MIN_LENGTH +++ ")".

Definition too_similar : string := "Too many similar characters".

(** The four classes [[a-z]], [[A-Z]], [[0-9]] and [[^A-Za-z0-9]]. *)
Definition is_lower (c : ascii) : bool := Str.between 97 122 c.
Definition is_upper (c : ascii) : bool := Str.between 65 90 c.
Definition is_digit (c : ascii) : bool := Str.between 48 57 c.
Definition is_symbol (c : ascii) : bool := negb (is_upper c || is_lower c || is_digit c).

Definition char_classes : list (ascii -> bool) := [is_lower; is_upper; is_digit; is_symbol].

(** [sum(bool(re.search(p, pw)) for p in ...)] *)
Definition categories (pw : string) : nat :=
  list_sum (List.map (fun p => if Str.any p pw then 1 else 0) char_classes).

Definition check_password_strength (pw : string) (wordset : list string)
  : result (list string) :=
  let reasons := [] in
  let reasons := if Str.len pw <? MIN_LENGTH then reasons ++ [too_short] else reasons in
  try! found := contains_dictionary pw wordset in
  let reasons := if fst found then reasons ++ [snd found] else reasons in
  let reasons := reasons ++ obvious_patterns pw in
  let reasons :=
    if (categories pw <? 3) && (Str.len pw <? 20) then reasons ++ [too_similar]
    else reasons in
  Ok reasons.

(** ** load_word_set *)

(** Why [open(p)] can fail. *)
Inductive errno : Type := ENOENT | EACCES | EISDIR.

Definition os_error (code : errno) (path : string) : exn :=
  match code with
  | ENOENT => FileNotFoundError path
  | EACCES => PermissionError path
  | EISDIR => IsADirectoryError path
  end.

(** What is at a path: a file that can be read, as the decoded lines that
    the iteration over it gives, or nothing that [open] can open. *)
Inductive source : Type :=
  | Lines (lines : list string)
  | OpenFails (code : errno).

Definition open (fs : string -> source) (p : string) : result (list string) :=
  match fs p with
  | Lines lines => Ok lines
  | OpenFails code => Raise (os_error code p)
  end.

Definition add_line (words : gset string) (line : string) : gset string :=
  let w := Str.lower (Str.strip line) in
  if MIN_DICT_WORD_LEN <=? Str.len w then {[ w ]} ∪ words else words.

(** [except (FileNotFoundError, PermissionError)] *)
Definition loader_catches (e : exn) : bool :=
  match e with
  | FileNotFoundError _ | PermissionError _ => true
  | _ => false
  end.

Fixpoint load_paths (fs : string -> source) (paths : list string) (words : gset string)
  : result (gset string) :=
  match paths with
  | [] => Ok words
  | p :: rest =>
      match open fs p with
      | Ok lines => load_paths fs rest (foldl add_line words lines)
      | Raise e => if loader_catches e then load_paths fs rest words else Raise e
      end
  end.

Definition load_word_set (fs : string -> source) (paths : list string)
  : result (gset string) :=
  load_paths fs paths ∅.

(** ** The session: what the process prints, asks and spawns *)

Inductive event : Type :=
  | Print (text : string)
  | Prompt (text : string)
  | Spawn (argv : list string) (input : string).

(** The part of the machine the script can see or change: whether the file
    at [MARKER] exists ([MARKER.exists()]), the word-list files, and the
    events so far (oldest first). *)
Record world : Type := World {
  marker_exists : bool;
  files : string -> source;
  trace : list event
}.

Definition emit (e : event) (w : world) : world :=
  World (marker_exists w) (files w) (trace w ++ [e]).

Definition IO (A : Type) : Type := world -> result A * world.

Definition io_ret {A : Type} (a : A) : IO A := fun w => (Ok a, w).

Definition io_bind {A B : Type} (m : IO A) (k : A -> IO B) : IO B :=
  fun w =>
    match m w with
    | (Ok a, w') => k a w'
    | (Raise e, w') => (Raise e, w')
    end.

Definition io_lift {A : Type} (r : result A) : IO A := fun w => (r, w).

Definition print (text : string) : IO unit := fun w => (Ok tt, emit (Print text) w).

Notation "'run!' x := m 'in' k" := (io_bind m (fun x => k))
  (at level 10, x name, m at level 100, k at level 200).
Notation "m ;;; k" := (io_bind m (fun _ => k))
  (at level 100, k at level 200, right associativity).

(** [except Exception] catches every exception of the model but
    [SystemExit], which derives from [BaseException] only. *)
Definition is_Exception (e : exn) : bool :=
  match e with
  | SystemExit _ => false
  | _ => true
  end.

Definition try_except {A : Type} (body : IO A) (handler : exn -> IO A) : IO A :=
  fun w =>
    match body w with
    | (Raise e, w') => if is_Exception e then handler e w' else (Raise e, w')
    | returned => returned
    end.

Definition line (s : string) : string := Str.snoc s Str.nl.

(** [str(e)] *)
Definition exn_str (e : exn) : string :=
  match e with
  | KeyError k => "'" +++ String k "'"
  | NameError n => "name '" +++ n +++ "' is not defined"
  | TypeError => "can only concatenate str"
  | EOFError => EmptyString
  | FileNotFoundError p => "[Errno 2] No such file or directory: '" +++ p +++ "'"
  | PermissionError p => "[Errno 13] Permission denied: '" +++ p +++ "'"
  | IsADirectoryError p => "[Errno 21] Is a directory: '" +++ p +++ "'"
  | SystemExit c => Str.of_nat c
  end.

(** *** Names *)

Inductive pyval : Type :=
  | VStr (s : string)
  | VInt (n : nat)
  | VObject.

(** The names the module binds at its top level: its imports, its
    constants and its functions. *)
Definition module_globals : gmap string pyval :=
  list_to_map
    [ ("sys", VObject); ("re", VObject); ("subprocess", VObject);
      ("getpass", VObject); ("os", VObject); ("Path", VObject);
      ("MARKER", VObject);
      ("MIN_LENGTH", VInt MIN_LENGTH);
      ("MIN_DICT_WORD_LEN", VInt MIN_DICT_WORD_LEN);
      ("MAX_LEET_SUBSTITUTION", VInt MAX_LEET_SUBSTITUTION);
      ("DEFAULT_DICT_FILES", VObject); ("LEET_MAP", VObject);
      ("load_word_set", VObject); ("obvious_patterns", VObject);
      ("contains_dictionary", VObject); ("check_password_strength", VObject);
      ("set_system_password", VObject); ("main", VObject) ].

(** The built-in names the module refers to. *)
Definition builtin_names : list string :=
  [ "set"; "open"; "len"; "range"; "bool"; "sum"; "str"; "print";
    "Exception"; "FileNotFoundError"; "PermissionError" ].

(** A name that the function does not assign is looked up among the
    module's globals, then among the built-ins. *)
Definition load_name (name : string) : result pyval :=
  match module_globals !! name with
  | Some v => Ok v
  | None =>
      if bool_decide (name ∈ builtin_names) then Ok VObject
      else Raise (NameError name)
  end.

(** [a + b] where [b] is a [str] *)
Definition add_str (a : pyval) (b : string) : result pyval :=
  match a with
  | VStr s => Ok (VStr (s +++ b))
  | _ => Raise TypeError
  end.

(** [v.encode()] *)
Definition encode (v : pyval) : result string :=
  match v with
  | VStr s => Ok s
  | _ => Raise TypeError
  end.

(** *** set_system_password *)

Record completed_process : Type := Completed {
  returncode : nat;
  stdout : string;
  stderr : string
}.

Section Session.

(** What [subprocess.run] gives for an argument vector and the bytes on
    its standard input: a finished process, or the exception of a process
    that could not be started. *)
Variable subprocess_run : list string -> string -> result completed_process.

(** The order in which the set built by the loader yields its words. *)
Variable set_iter : gset string -> list string.

Definition run_process (argv : list string) (input : string) : IO completed_process :=
  fun w => (subprocess_run argv input, emit (Spawn argv input) w).

Definition passwd_input (password : string) : result string :=
  try! bbpassword := load_name "bbpassword" in
  try! v := add_str bbpassword (String Str.nl EmptyString) in
  try! v := add_str v password in
  try! v := add_str v (String Str.nl EmptyString) in
  try! v := add_str v password in
  try! v := add_str v (String Str.nl EmptyString) in
  encode v.

Definition set_system_password (password : string) : IO bool :=
  try_except
    (run! input := io_lift (passwd_input password) in
     run! proc := run_process ["passwd"] input in
     print (stdout proc) ;;;
     if negb (returncode proc =? 0)
     then print (stderr proc) ;;; io_ret false
     else io_ret true)
    (fun e => print ("Error running passwd: " +++ exn_str e) ;;; io_ret false).

(** *** main *)

Definition print_reasons (reasons : list string) (w : world) : world :=
  fold_left (fun w r => emit (Print ("- " +++ r)) w) reasons w.

(** The [while True] loop, over the lines typed at the two prompts.
    [getpass] raises [EOFError] when no line is left.  The credential
    applier is a parameter; [main] passes [set_system_password]. *)
Fixpoint main_loop (applier : string -> IO bool) (wordset : list string)
    (tty : list string) (w : world) {struct tty} : result unit * world :=
  let w := emit (Prompt "Enter new password: ") w in
  match tty with
  | [] => (Raise EOFError, w)
  | pw1 :: tty1 =>
      let w := emit (Prompt "Re-enter new password: ") w in
      match tty1 with
      | [] => (Raise EOFError, w)
      | pw2 :: rest =>
          if negb (String.eqb pw1 pw2) then
            main_loop applier wordset rest
              (emit (Print (line "Passwords do not match. Try again.")) w)
          else
            match check_password_strength pw1 wordset with
            | Raise e => (Raise e, w)
            | Ok ((_ :: _) as reasons) =>
                let w := emit (Print "Password too weak:") w in
                let w := print_reasons reasons w in
                let w := emit (Print (String Str.nl (line "Please try again."))) w in
                main_loop applier wordset rest w
            | Ok [] =>
                let w := emit (Print (line "Password accepted. Updating bbuser password...")) w in
                match applier pw1 w with
                | (Raise e, w) => (Raise e, w)
                | (Ok true, w) =>
                    (Raise (SystemExit 0), emit (Print "Password has been updated.") w)
                | (Ok false, w) =>
                    main_loop applier wordset rest
                      (emit (Print (line "Failed to update password. Try again.")) w)
                end
            end
      end
  end.

Definition banner : list string :=
  [ "Password change required for bbuser. Ensure that you will remember this password.";
    "First input your current password once, then you will be prompted to input the new password twice";
    "The minimum character length is 12. Please do not use any dictionary words or chains of repeated characters." ].

Definition main_with (applier : string -> IO bool) (tty : list string) (w : world)
  : result unit * world :=
  if marker_exists w then (Ok tt, emit (Print "Password already changed, exiting.") w)
  else
    let w := fold_left (fun w s => emit (Print s) w) banner w in
    match load_word_set (files w) DEFAULT_DICT_FILES with
    | Raise e => (Raise e, w)
    | Ok wordset => main_loop applier (set_iter wordset) tty w
    end.

Definition main : list string -> world -> result unit * world :=
  main_with set_system_password.

End Session.

(** * Vocabulary of the statements *)

(** [run c post] is four times [c], then [post]. *)
Definition run (c : ascii) (post : string) : string :=
  String c (String c (String c (String c post))).

(** The leet walk as the specification words it: a fold over the
    characters that yields, after each character, the normalized prefix and
    the number of substitutions made so far; the dictionary is consulted
    after the [k]-th character when that number is within the budget. *)
Definition normalize_char (c : ascii) : ascii := default c (LEET_MAP !! c).

Definition normalize (s : string) : string := Str.map normalize_char s.

Fixpoint substitutions (s : string) : nat :=
  match s with
  | EmptyString => 0
  | String c s' => (if leet_has c then 1 else 0) + substitutions s'
  end.

Definition leet_check (wordset : list string) (lower : string) (k : nat) : option string :=
  let prefix := Str.take k lower in
  if substitutions prefix <=? MAX_LEET_SUBSTITUTION
  then scan_words (normalize prefix) wordset
  else None.

Fixpoint first_check (check : nat -> option string) (ks : list nat) : option string :=
  match ks with
  | [] => None
  | k :: ks' =>
      match check k with
      | Some w => Some w
      | None => first_check check ks'
      end
  end.

Definition report (found : option string) : bool * string :=
  match found with
  | Some w => (true, word_msg w)
  | None => (false, EmptyString)
  end.

Definition leet_stage_spec (wordset : list string) (lower : string) : bool * string :=
  report (first_check (leet_check wordset lower) (List.seq 1 (Str.len lower))).

(** The four parts of the evaluator's result. *)
Definition length_part (pw : string) : list string :=
  if Str.len pw <? MIN_LENGTH then [too_short] else [].

Definition dictionary_part (found : bool * string) : list string :=
  if fst found then [snd found] else [].

Definition diversity_part (pw : string) : list string :=
  if (categories pw <? 3) && (Str.len pw <? 20) then [too_similar] else [].

(** The password holds a dictionary word: verbatim (words of the minimum
    length only), reversed, or in a normalized prefix within the budget. *)
Definition embedded (pw : string) (wordset : list string) : Prop :=
  let lower := Str.lower pw in
  (exists w, In w wordset /\ MIN_DICT_WORD_LEN <= Str.len w /\ Str.isin w lower = true) \/
  (exists w, In w wordset /\ Str.isin w (Str.rev lower) = true) \/
  (exists k w, 1 <= k <= Str.len lower /\
     substitutions (Str.take k lower) <= MAX_LEET_SUBSTITUTION /\
     In w wordset /\ Str.isin w (normalize (Str.take k lower)) = true).

(** The word that a line of a word list stands for, if it is long enough. *)
Definition word_of (line : string) (w : string) : Prop :=
  w = Str.lower (Str.strip line) /\ MIN_DICT_WORD_LEN <= Str.len w.

(** Every source that cannot be opened is missing or denied. *)
Definition available (fs : string -> source) (paths : list string) : Prop :=
  forall p code,
    In p paths -> fs p = OpenFails code -> loader_catches (os_error code p) = true.

(** A device with one word list, one path that is denied and one that is
    missing. *)
Definition sample_files (p : string) : source :=
  if String.eqb p "/usr/share/dict/cracklib-small"
  then Lines [line "Dragon"; "  cat "; line "password"; line "dragon"]
  else if String.eqb p "/root/words"
  then OpenFails EACCES
  else OpenFails ENOENT.

Definition sample_paths : list string :=
  ["/usr/share/dict/words"; "/usr/share/dict/cracklib-small"; "/root/words"].


Definition updated : string := "Password has been updated.".

(** An event that is neither the start of a process nor the report of a
    successful update. *)
Definition harmless (e : event) : Prop :=
  match e with
  | Spawn _ _ => False
  | Print text => text <> updated
  | Prompt _ => True
  end.

(** [w'] is [w] with harmless events added. *)
Definition extends (w w' : world) : Prop :=
  exists events, trace w' = trace w ++ events /\ Forall harmless events.


(** A device without any word list. *)
Definition no_files : string -> source := fun _ => OpenFails ENOENT.

(** No marker, no word list, nothing printed yet. *)
Definition fresh_device : world := World false no_files [].


(** The window of [seq] of length [l] at offset [i], or its reversal,
    occurs in [pw]: the test of the innermost loop of [obvious_patterns]. *)
Definition window_hit (pw seq : string) (l i : nat) : bool :=
  Str.isin (Str.slice i l seq) pw || Str.isin (Str.rev (Str.slice i l seq)) pw.

(** A character that [str.lower] changes. *)
Definition changed_by_lower (c : ascii) : bool :=
  negb (Ascii.eqb (Str.lower_char c) c).

(** The words of the word list of [sample_files]. *)
Definition sample_words : gset string := {[ "dragon"; "password" ]}.

(** The device of [sample_files] with a directory among the paths. *)
Definition files_with_directory (p : string) : source :=
  if String.eqb p "/usr/share/dict" then OpenFails EISDIR else sample_files p.

(** An applier that leaves a record of the password it is given and
    answers as [answer] says. *)
Definition recording_applier (answer : string -> bool) : string -> IO bool :=
  fun pw w => (Ok (answer pw), emit (Spawn ["passwd"] pw) w).














(** * Properties *)

(** ** Strings *)

Module StrFacts.
Import Str.

Lemma app_nil_r s : s +++ EmptyString = s.
Proof. induction s as [|c s IH]; simpl; [reflexivity | now rewrite IH]. Qed.

Lemma app_assoc s t u : (s +++ t) +++ u = s +++ t +++ u.
Proof. induction s as [|c s IH]; simpl; [reflexivity | now rewrite IH]. Qed.

Lemma len_app s t : len (s +++ t) = len s + len t.
Proof. induction s as [|c s IH]; simpl; [reflexivity | now rewrite IH]. Qed.

Lemma len_map f s : len (map f s) = len s.
Proof. induction s as [|c s IH]; simpl; [reflexivity | now rewrite IH]. Qed.

Lemma map_app f s t : map f (s +++ t) = map f s +++ map f t.
Proof. induction s as [|c s IH]; simpl; [reflexivity | now rewrite IH]. Qed.

Lemma starts_app w post : starts w (w +++ post) = true.
Proof.
  induction w as [|a w IH]; simpl; [reflexivity|].
  rewrite Ascii.eqb_refl. exact IH.
Qed.

Lemma starts_inv w t : starts w t = true -> exists post, t = w +++ post.
Proof.
  revert t. induction w as [|a w IH]; intros t H.
  - exists t. reflexivity.
  - destruct t as [|b t]; simpl in H; [discriminate|].
    destruct (Ascii.eqb a b) eqn:E; [|discriminate].
    apply Ascii.eqb_eq in E. subst b.
    destruct (IH _ H) as [post ->]. exists post. reflexivity.
Qed.

Lemma starts_isin w s : starts w s = true -> isin w s = true.
Proof. destruct s; simpl; intros ->; reflexivity. Qed.

(** [w in s] holds exactly when [s] is some text, then [w], then some
    text. *)
Lemma isin_spec w s :
  isin w s = true <-> exists pre post, s = pre +++ w +++ post.
Proof.
  split.
  - induction s as [|c s IH]; simpl; intros H.
    + rewrite orb_false_r in H. apply starts_inv in H as [post ->].
      exists EmptyString, post. reflexivity.
    + apply orb_true_iff in H as [H|H].
      * apply starts_inv in H as [post ->]. exists EmptyString, post. reflexivity.
      * destruct (IH H) as (pre & post & ->). exists (String c pre), post. reflexivity.
  - intros (pre & post & ->). induction pre as [|c pre IH]; simpl.
    + apply starts_isin, starts_app.
    + rewrite IH. apply orb_true_r.
Qed.

Lemma isin_app_r w pre s : isin w s = true -> isin w (pre +++ s) = true.
Proof.
  intros (a & b & ->)%isin_spec. apply isin_spec.
  exists (pre +++ a), b. now rewrite app_assoc.
Qed.

Lemma isin_app_l w s post : isin w s = true -> isin w (s +++ post) = true.
Proof.
  intros (a & b & ->)%isin_spec. apply isin_spec.
  exists a, (b +++ post). now rewrite !app_assoc.
Qed.

Lemma isin_refl w : isin w w = true.
Proof. apply isin_spec. exists EmptyString, EmptyString. simpl. now rewrite app_nil_r. Qed.

Lemma lower_char_idem c : lower_char (lower_char c) = lower_char c.
Proof. destruct c as [[] [] [] [] [] [] [] []]; reflexivity. Qed.

End StrFacts.

(** ** obvious_patterns: the repetition rule *)

Arguments four_at : simpl never.

Lemma four_at_spec s :
  four_at s = true <-> exists c post, c <> Str.nl /\ s = run c post.
Proof.
  unfold four_at, run, dot. split.
  - destruct s as [|a [|b [|c [|d t]]]]; try discriminate.
    rewrite !andb_true_iff, negb_true_iff, !Ascii.eqb_eq, Ascii.eqb_neq.
    intros [[[Ha ->] ->] ->]. eauto.
  - intros (c & post & Hc & ->).
    rewrite !Ascii.eqb_refl, !andb_true_r, negb_true_iff. now apply Ascii.eqb_neq.
Qed.

Lemma search_repeat_spec s :
  search_repeat s = true <->
  exists pre c post, c <> Str.nl /\ s = pre +++ run c post.
Proof.
  split.
  - induction s as [|a s IH]; simpl; intros H.
    + discriminate.
    + apply orb_true_iff in H as [H|H].
      * apply four_at_spec in H as (c & post & Hc & ->).
        exists EmptyString, c, post. auto.
      * destruct (IH H) as (pre & c & post & Hc & ->).
        exists (String a pre), c, post. auto.
  - intros (pre & c & post & Hc & ->).
    induction pre as [|a pre IH].
    + simpl Str.app. unfold search_repeat; fold search_repeat.
      apply orb_true_iff. left. apply four_at_spec. eauto.
    + simpl Str.app. unfold search_repeat; fold search_repeat.
      rewrite IH. apply orb_true_r.
Qed.

Lemma weak_issue_not_repeat chunk : weak_issue chunk <> repeat_issue.
Proof. unfold weak_issue, repeat_issue. simpl. discriminate. Qed.

Lemma scan_windows_weak pw seq l offsets x :
  In x (scan_windows pw seq l offsets) -> exists chunk, x = weak_issue chunk.
Proof.
  induction offsets as [|i rest IH]; simpl; [tauto|].
  destruct (_ || _); [|exact IH].
  intros [<-|[]]. eauto.
Qed.

Lemma scan_sequence_weak pw seq x :
  In x (scan_sequence pw seq) -> exists chunk, x = weak_issue chunk.
Proof.
  unfold scan_sequence. intros (l & _ & H)%in_flat_map.
  eapply scan_windows_weak, H.
Qed.

Lemma weak_part_weak pw x :
  In x (flat_map (scan_sequence pw) sequences) -> exists chunk, x = weak_issue chunk.
Proof. intros (seq & _ & H)%in_flat_map. eapply scan_sequence_weak, H. Qed.

Lemma repeat_issue_iff password :
  In repeat_issue (obvious_patterns password) <->
  search_repeat (Str.lower password) = true.
Proof.
  unfold obvious_patterns. rewrite in_app_iff. split.
  - intros [H|H].
    + destruct (search_repeat _); [reflexivity | destruct H].
    + apply weak_part_weak in H as [chunk H]. symmetry in H.
      now apply weak_issue_not_repeat in H.
  - intros ->. left. now left.
Qed.

Lemma scan_windows_length pw seq l offsets :
  length (scan_windows pw seq l offsets) <= 1.
Proof.
  induction offsets as [|i rest IH]; simpl; [lia|].
  destruct (_ || _); simpl; lia.
Qed.

Lemma scan_sequence_length pw seq : length (scan_sequence pw seq) <= 2.
Proof.
  unfold scan_sequence. simpl. rewrite !length_app. simpl.
  pose proof (scan_windows_length pw seq 4 (window_range seq 4)).
  pose proof (scan_windows_length pw seq 5 (window_range seq 5)).
  lia.
Qed.

(** ** contains_dictionary: the three stages *)

Lemma scan_verbatim_Some lower wordset w :
  scan_verbatim lower wordset = Some w ->
  In w wordset /\ MIN_DICT_WORD_LEN <= Str.len w /\ Str.isin w lower = true.
Proof.
  induction wordset as [|x rest IH]; simpl; [discriminate|].
  destruct (Str.len x <? MIN_DICT_WORD_LEN) eqn:Hlen.
  - intros H. destruct (IH H) as (? & ? & ?). auto.
  - apply Nat.ltb_ge in Hlen. destruct (Str.isin x lower) eqn:Hin.
    + intros [= <-]. auto.
    + intros H. destruct (IH H) as (? & ? & ?). auto.
Qed.

Lemma scan_verbatim_None lower wordset :
  scan_verbatim lower wordset = None <->
  forall w, In w wordset -> MIN_DICT_WORD_LEN <= Str.len w -> Str.isin w lower = false.
Proof.
  induction wordset as [|x rest IH]; simpl.
  - split; [intros _ w [] | reflexivity].
  - destruct (Str.len x <? MIN_DICT_WORD_LEN) eqn:Hlen.
    + apply Nat.ltb_lt in Hlen. rewrite IH. split.
      * intros H w [<-|Hw] Hl; [lia | now apply H].
      * intros H w Hw. apply H. now right.
    + apply Nat.ltb_ge in Hlen. destruct (Str.isin x lower) eqn:Hin.
      * split; [discriminate|]. intros H.
        specialize (H x (or_introl eq_refl) Hlen). congruence.
      * rewrite IH. split.
        -- intros H w [<-|Hw] Hl; [assumption | now apply H].
        -- intros H w Hw. apply H. now right.
Qed.

Lemma scan_words_Some text wordset w :
  scan_words text wordset = Some w -> In w wordset /\ Str.isin w text = true.
Proof.
  induction wordset as [|x rest IH]; simpl; [discriminate|].
  destruct (Str.isin x text) eqn:Hin.
  - intros [= <-]. auto.
  - intros H. destruct (IH H). auto.
Qed.

Lemma scan_words_None text wordset :
  scan_words text wordset = None <->
  forall w, In w wordset -> Str.isin w text = false.
Proof.
  induction wordset as [|x rest IH]; simpl.
  - split; [intros _ w [] | reflexivity].
  - destruct (Str.isin x text) eqn:Hin.
    + split; [discriminate|]. intros H.
      specialize (H x (or_introl eq_refl)). congruence.
    + rewrite IH. split.
      * intros H w [<-|Hw]; [assumption | now apply H].
      * intros H w Hw. apply H. now right.
Qed.

(** Every word of the set is tried, whatever its length. *)
Lemma scan_words_hit text wordset w :
  In w wordset -> Str.isin w text = true -> exists w', scan_words text wordset = Some w'.
Proof.
  intros Hw Hin. destruct (scan_words text wordset) as [w'|] eqn:E; [eauto|].
  rewrite scan_words_None in E. rewrite (E w Hw) in Hin. discriminate.
Qed.

(** *** The loop of the source against the walk of the specification *)

Lemma leet_step_ok normalized leet_changes ch :
  leet_step normalized leet_changes ch =
  Ok (Str.snoc normalized (normalize_char ch),
      leet_changes + (if leet_has ch then 1 else 0)).
Proof.
  unfold leet_step, leet_has, leet_get, normalize_char.
  destruct (LEET_MAP !! ch) as [v|] eqn:E.
  - rewrite bool_decide_eq_true_2 by eauto. reflexivity.
  - rewrite bool_decide_eq_false_2 by (intros [? ?]; discriminate).
    simpl. now rewrite Nat.add_0_r.
Qed.

Lemma len_snoc s c : Str.len (Str.snoc s c) = S (Str.len s).
Proof. unfold Str.snoc. rewrite StrFacts.len_app. simpl. lia. Qed.

Lemma snoc_app s c t : Str.snoc s c +++ t = s +++ String c t.
Proof. unfold Str.snoc. now rewrite StrFacts.app_assoc. Qed.

Lemma normalize_snoc s c :
  normalize (Str.snoc s c) = Str.snoc (normalize s) (normalize_char c).
Proof. unfold normalize, Str.snoc. now rewrite StrFacts.map_app. Qed.

Lemma substitutions_app s t :
  substitutions (s +++ t) = substitutions s + substitutions t.
Proof.
  induction s as [|c s IH]; cbn [substitutions Str.app]; [reflexivity | rewrite IH; lia].
Qed.

Lemma substitutions_snoc s c :
  substitutions (Str.snoc s c) = substitutions s + (if leet_has c then 1 else 0).
Proof. unfold Str.snoc. rewrite substitutions_app. cbn [substitutions]. lia. Qed.

Lemma take_app pre t : Str.take (Str.len pre) (pre +++ t) = pre.
Proof.
  unfold Str.take. induction pre as [|c pre IH]; simpl.
  - destruct t; reflexivity.
  - now rewrite IH.
Qed.


(** The loop of the source computes the fold of the specification, from
    any point of the walk. *)
Lemma scan_leet_refines wordset rest : forall pre,
  scan_leet wordset (normalize pre) (substitutions pre) rest =
  Ok (report (first_check (leet_check wordset (pre +++ rest))
                (List.seq (S (Str.len pre)) (Str.len rest)))).
Proof.
  induction rest as [|ch rest IH]; intros pre; [reflexivity|].
  cbn [scan_leet Str.len List.seq first_check].
  rewrite leet_step_ok. cbn [rbind fst snd].
  rewrite <- normalize_snoc, <- substitutions_snoc.
  unfold leet_check at 1.
  assert (Str.take (S (Str.len pre)) (pre +++ String ch rest) = Str.snoc pre ch) as ->.
  { rewrite <- (snoc_app pre ch rest), <- (len_snoc pre ch). apply take_app. }
  cbv zeta.
  specialize (IH (Str.snoc pre ch)). rewrite len_snoc, snoc_app in IH.
  destruct (substitutions (Str.snoc pre ch) <=? MAX_LEET_SUBSTITUTION).
  - destruct (scan_words _ wordset); [reflexivity | exact IH].
  - exact IH.
Qed.

Lemma scan_leet_spec wordset lower :
  scan_leet wordset EmptyString 0 lower = Ok (leet_stage_spec wordset lower).
Proof. exact (scan_leet_refines wordset lower EmptyString). Qed.

Lemma first_check_Some check ks w :
  first_check check ks = Some w -> exists k, In k ks /\ check k = Some w.
Proof.
  induction ks as [|k ks IH]; simpl; [discriminate|].
  destruct (check k) as [w'|] eqn:E.
  - intros [= <-]. eauto.
  - intros H. destruct (IH H) as (k' & ? & ?). eauto.
Qed.

Lemma first_check_None check ks :
  first_check check ks = None <-> forall k, In k ks -> check k = None.
Proof.
  induction ks as [|k ks IH]; simpl.
  - split; [intros _ k [] | reflexivity].
  - destruct (check k) as [w'|] eqn:E.
    + split; [discriminate|]. intros H.
      specialize (H k (or_introl eq_refl)). congruence.
    + rewrite IH. split.
      * intros H k' [<-|Hk]; [assumption | now apply H].
      * intros H k' Hk. apply H. now right.
Qed.

(** [contains_dictionary] never raises. *)
Lemma contains_dictionary_total pw wordset :
  exists hit msg, contains_dictionary pw wordset = Ok (hit, msg).
Proof.
  unfold contains_dictionary.
  destruct (scan_verbatim _ _); [eauto|].
  destruct (scan_words _ _); [eauto|].
  rewrite scan_leet_spec. destruct (leet_stage_spec _ _). eauto.
Qed.

Lemma contains_dictionary_hit pw wordset msg :
  contains_dictionary pw wordset = Ok (true, msg) ->
  exists w, In w wordset /\ (msg = word_msg w \/ msg = reversed_msg w).
Proof.
  unfold contains_dictionary.
  destruct (scan_verbatim _ _) as [w|] eqn:E1.
  { intros [= <-]. apply scan_verbatim_Some in E1 as (? & _). eauto. }
  destruct (scan_words _ _) as [w|] eqn:E2.
  { intros [= <-]. apply scan_words_Some in E2 as (? & _). eauto. }
  rewrite scan_leet_spec. unfold leet_stage_spec.
  destruct (first_check _ _) as [w|] eqn:E3; [|discriminate].
  intros [= <-]. apply first_check_Some in E3 as (k & _ & E3).
  unfold leet_check in E3. destruct (_ <=? _); [|discriminate].
  apply scan_words_Some in E3 as (? & _). eauto.
Qed.

Lemma contains_dictionary_miss pw wordset msg :
  contains_dictionary pw wordset = Ok (false, msg) -> msg = EmptyString.
Proof.
  unfold contains_dictionary.
  destruct (scan_verbatim _ _); [discriminate|].
  destruct (scan_words _ _); [discriminate|].
  rewrite scan_leet_spec. unfold leet_stage_spec.
  destruct (first_check _ _); [discriminate|]. now intros [= <-].
Qed.

(** ** check_password_strength: the shape of the result *)

Lemma check_password_strength_shape pw wordset found :
  contains_dictionary pw wordset = Ok found ->
  check_password_strength pw wordset =
  Ok (length_part pw ++ dictionary_part found ++ obvious_patterns pw ++ diversity_part pw).
Proof.
  intros H. unfold check_password_strength, length_part, dictionary_part, diversity_part.
  rewrite H. cbn [rbind].
  destruct (Str.len pw <? MIN_LENGTH), (fst found), (_ && _);
    cbn [List.app]; rewrite <- ?List.app_assoc, ?List.app_nil_r; reflexivity.
Qed.

Lemma check_password_strength_total pw wordset :
  exists reasons, check_password_strength pw wordset = Ok reasons.
Proof.
  destruct (contains_dictionary_total pw wordset) as (hit & msg & H).
  rewrite (check_password_strength_shape _ _ _ H). eauto.
Qed.

Lemma obvious_patterns_forms password x :
  In x (obvious_patterns password) ->
  x = repeat_issue \/ exists chunk, x = weak_issue chunk.
Proof.
  unfold obvious_patterns. rewrite in_app_iff. intros [H|H].
  - destruct (search_repeat _); [|destruct H]. destruct H as [<-|[]]. now left.
  - right. eapply weak_part_weak, H.
Qed.


Lemma weak_part_length pw : length (flat_map (scan_sequence pw) sequences) <= 2.
Proof.
  unfold sequences. cbn [flat_map]. rewrite List.app_nil_r.
  apply scan_sequence_length.
Qed.

(** ** Claims about the pattern detector *)

(** C1: the claim speaks of four reference strings, each scanned for windows
    of length 4 and of length 5, so that chunks of two reference strings at
    one length give two issues.  In the source the four literals of the list
    [sequences] are not separated by commas, so the list holds their
    concatenation as its only element: a password with a chunk of the
    alphabet and a chunk of the digits gets the first chunk only, a window
    across the seam of two literals is a weak sequence, and no password gets
    more than two weak-sequence issues. *)
Theorem sequences_joined :
  length sequences = 1 /\
  obvious_patterns "abcd1234" = ["Password contains weak sequence 'abcd'"] /\
  obvious_patterns "00xyzq00" = ["Password contains weak sequence 'xyzq'"] /\
  forall password,
    length (flat_map (scan_sequence (Str.lower password)) sequences) <= 2.
Proof.
  split; [reflexivity|]. split; [vm_compute; reflexivity|].
  split; [vm_compute; reflexivity|].
  intros password. apply weak_part_length.
Qed.


(** C5 (amended): the repetition issue is reported exactly when the
    lowercased password holds a run of four identical characters other than
    the line feed (the dot of the regular expression does not match a line
    feed, and the run is looked for after lowercasing); ["aaaaaaaaaaaa"],
    which meets the minimum length, is rejected with this reason for every
    word set. *)
Theorem repetition_rule :
  (forall password,
     In "Password contains 4+ repeated characters" (obvious_patterns password) <->
     exists pre c post, c <> Str.nl /\ Str.lower password = pre +++ run c post) /\
  (forall wordset, exists reasons,
     check_password_strength "aaaaaaaaaaaa" wordset = Ok reasons /\
     In "Password contains 4+ repeated characters" reasons /\
     12 <= String.length "aaaaaaaaaaaa").
Proof.
  change "Password contains 4+ repeated characters" with repeat_issue.
  split.
  - intros password. rewrite repeat_issue_iff. apply search_repeat_spec.
  - intros wordset.
    destruct (contains_dictionary_total "aaaaaaaaaaaa" wordset) as (hit & msg & H).
    rewrite (check_password_strength_shape _ _ _ H). eexists. split; [reflexivity|].
    split; [|vm_compute; lia].
    rewrite !in_app_iff. right. right. left.
    apply repeat_issue_iff. vm_compute. reflexivity.
Qed.

Lemma repetition_rule_witness :
  In "Password contains 4+ repeated characters" (obvious_patterns "xyAaAaz").
Proof.
  apply (proj1 repetition_rule "xyAaAaz").
  exists "xy", "a"%char, "z". split; [vm_compute; discriminate | reflexivity].
Defined.

(** C5, as stated, fails on a run of line feeds: four line feeds are four
    identical consecutive characters and the detector reports nothing. *)
Lemma repetition_rule_line_feed :
  run Str.nl EmptyString =
    String "010" (String "010" (String "010" (String "010" EmptyString))) /\
  obvious_patterns (run Str.nl EmptyString) = [].
Proof. split; vm_compute; reflexivity. Qed.

(** ** The dictionary matcher, independently of the order of the words *)

Lemma contains_dictionary_stages pw wordset msg :
  contains_dictionary pw wordset = Ok (false, msg) ->
  scan_verbatim (Str.lower pw) wordset = None /\
  scan_words (Str.rev (Str.lower pw)) wordset = None /\
  first_check (leet_check wordset (Str.lower pw))
    (List.seq 1 (Str.len (Str.lower pw))) = None.
Proof.
  unfold contains_dictionary.
  destruct (scan_verbatim _ _); [discriminate|].
  destruct (scan_words _ _); [discriminate|].
  rewrite scan_leet_spec. unfold leet_stage_spec.
  destruct (first_check _ _); [discriminate|]. auto.
Qed.

Lemma contains_dictionary_hit_iff pw wordset :
  (exists msg, contains_dictionary pw wordset = Ok (true, msg)) <-> embedded pw wordset.
Proof.
  split.
  - intros [msg H]. unfold contains_dictionary in H. unfold embedded. cbv zeta.
    destruct (scan_verbatim _ _) as [w|] eqn:E1.
    { left. exists w. now apply scan_verbatim_Some. }
    destruct (scan_words _ _) as [w|] eqn:E2.
    { right. left. exists w. now apply scan_words_Some. }
    right. right. rewrite scan_leet_spec in H. unfold leet_stage_spec in H.
    destruct (first_check _ _) as [w|] eqn:E3; [|discriminate].
    apply first_check_Some in E3 as (k & Hk & E3).
    apply in_seq in Hk. unfold leet_check in E3.
    destruct (_ <=? _) eqn:Hb; [|discriminate].
    apply Nat.leb_le in Hb. apply scan_words_Some in E3 as (? & ?).
    exists k, w. repeat split; try assumption; lia.
  - intros Hemb.
    destruct (contains_dictionary_total pw wordset) as ([] & msg & H); [eauto|].
    exfalso. apply contains_dictionary_stages in H as (H1 & H2 & H3).
    destruct Hemb as [(w & Hw & Hl & Hin)|[(w & Hw & Hin)|(k & w & Hk & Hs & Hw & Hin)]].
    + rewrite scan_verbatim_None in H1. rewrite (H1 w Hw Hl) in Hin. discriminate.
    + rewrite scan_words_None in H2. rewrite (H2 w Hw) in Hin. discriminate.
    + rewrite first_check_None in H3.
      assert (In k (List.seq 1 (Str.len (Str.lower pw)))) as Hk' by (apply in_seq; lia).
      specialize (H3 k Hk'). unfold leet_check in H3.
      apply Nat.leb_le in Hs. rewrite Hs in H3.
      rewrite scan_words_None in H3. rewrite (H3 w Hw) in Hin. discriminate.
Qed.

Lemma embedded_same_words pw ws1 ws2 :
  (forall w, In w ws1 <-> In w ws2) -> embedded pw ws1 -> embedded pw ws2.
Proof.
  intros Hsame [(w & Hw & H)|[(w & Hw & H)|(k & w & Hk & Hs & Hw & H)]];
    apply Hsame in Hw; unfold embedded.
  - left. exists w. auto.
  - right. left. exists w. auto.
  - right. right. exists k, w. auto.
Qed.

Lemma hit_same_words pw ws1 ws2 hit1 msg1 hit2 msg2 :
  (forall w, In w ws1 <-> In w ws2) ->
  contains_dictionary pw ws1 = Ok (hit1, msg1) ->
  contains_dictionary pw ws2 = Ok (hit2, msg2) ->
  hit1 = hit2.
Proof.
  intros Hsame H1 H2.
  destruct hit1, hit2; try reflexivity; exfalso.
  - assert (embedded pw ws2) as He.
    { eapply embedded_same_words; [exact Hsame|]. apply contains_dictionary_hit_iff. eauto. }
    apply contains_dictionary_hit_iff in He as [m He]. congruence.
  - assert (embedded pw ws1) as He.
    { eapply embedded_same_words; [intros w; symmetry; apply Hsame|].
      apply contains_dictionary_hit_iff. eauto. }
    apply contains_dictionary_hit_iff in He as [m He]. congruence.
Qed.

(** ** Claims about the strength evaluator *)









(** C7: the evaluator is total.  For every password and every word set the
    matcher returns a verdict and the evaluator returns a list of reasons,
    neither raises; the list is the length reason, the matcher's message,
    the detector's issues and the diversity reason, each present or absent,
    in this order.  Neither function takes or returns the [world]: the
    result is a function of the password and the word set alone. *)
Theorem evaluator_total (pw : string) (wordset : list string) :
  exists hit msg,
    contains_dictionary pw wordset = Ok (hit, msg) /\
    check_password_strength pw wordset =
      Ok (length_part pw ++ dictionary_part (hit, msg) ++
          obvious_patterns pw ++ diversity_part pw) /\
    (hit = false -> msg = EmptyString) /\
    (hit = true ->
       exists w, In w wordset /\ (msg = word_msg w \/ msg = reversed_msg w)) /\
    length (length_part pw ++ dictionary_part (hit, msg) ++
            obvious_patterns pw ++ diversity_part pw) <= 6.
Proof.
  destruct (contains_dictionary_total pw wordset) as (hit & msg & Hfound).
  exists hit, msg. split; [exact Hfound|].
  split; [now apply check_password_strength_shape|].
  split; [intros ->; eapply contains_dictionary_miss, Hfound|].
  split; [intros ->; eapply contains_dictionary_hit, Hfound|].
  rewrite !length_app.
  assert (length (obvious_patterns pw) <= 3) as Hpat.
  { unfold obvious_patterns. rewrite length_app.
    pose proof (weak_part_length (Str.lower pw)) as Hseq.
    destruct (search_repeat _); cbn [length]; lia. }
  unfold length_part, dictionary_part, diversity_part.
  destruct (Str.len pw <? MIN_LENGTH), (fst (hit, msg)), (_ && _); simpl; lia.
Qed.

(** C8: evaluation is deterministic.  Two evaluations on the same password
    and the same word set give the same reasons; and for two enumerations
    of one set of words, in whatever order the set yields them, the
    password is accepted by both or by neither and gets the same number of
    reasons (only the word that the matcher names can differ). *)
Theorem evaluation_deterministic (pw : string) (ws1 ws2 : list string) :
  (forall w, In w ws1 <-> In w ws2) ->
  exists r1 r2,
    check_password_strength pw ws1 = Ok r1 /\
    check_password_strength pw ws2 = Ok r2 /\
    (r1 = [] <-> r2 = []) /\
    length r1 = length r2 /\
    (ws1 = ws2 -> r1 = r2).
Proof.
  intros Hsame.
  destruct (contains_dictionary_total pw ws1) as (hit1 & msg1 & H1).
  destruct (contains_dictionary_total pw ws2) as (hit2 & msg2 & H2).
  pose proof (hit_same_words _ _ _ _ _ _ _ Hsame H1 H2) as <-.
  rewrite (check_password_strength_shape _ _ _ H1), (check_password_strength_shape _ _ _ H2).
  do 2 eexists. split; [reflexivity|]. split; [reflexivity|].
  split; [|split].
  - unfold dictionary_part. cbn [fst snd].
    destruct (length_part pw), hit1; cbn [List.app]; split; intros; congruence.
  - rewrite !length_app. unfold dictionary_part. cbn [fst snd].
    destruct hit1; reflexivity.
  - intros <-. congruence.
Qed.

Lemma evaluation_deterministic_witness :
  exists r1 r2,
    check_password_strength "MyDragon#2024" ["dragon"; "drag"; "password"] = Ok r1 /\
    check_password_strength "MyDragon#2024" ["password"; "drag"; "dragon"] = Ok r2 /\
    (r1 = [] <-> r2 = []) /\
    length r1 = length r2 /\
    (["dragon"; "drag"; "password"] = ["password"; "drag"; "dragon"] -> r1 = r2).
Proof.
  apply (evaluation_deterministic "MyDragon#2024").
  intros w. simpl. tauto.
Defined.

(** ** Claims about the dictionary matcher *)

(** Beyond the budget the walk consults the dictionary no more. *)
Lemma scan_leet_over_budget wordset rest : forall normalized leet_changes,
  MAX_LEET_SUBSTITUTION < leet_changes ->
  scan_leet wordset normalized leet_changes rest = Ok (false, EmptyString).
Proof.
  induction rest as [|ch rest IH]; intros normalized leet_changes Hover; [reflexivity|].
  cbn [scan_leet]. rewrite leet_step_ok. cbn [rbind fst snd].
  assert ((leet_changes + (if leet_has ch then 1 else 0) <=? MAX_LEET_SUBSTITUTION) = false) as ->.
  { apply Nat.leb_gt. destruct (leet_has ch); lia. }
  apply IH. destruct (leet_has ch); lia.
Qed.

(** C2: when the verbatim and the reversed stage find nothing, the matcher
    returns what the leet walk of the specification returns: after each
    character, if the substitutions so far are at most 2, the dictionary is
    looked up in the normalized prefix and the first hit is reported; once
    the count is above 2 nothing more is reported; and with ["dragon"] in
    the word set, ["dr4g0n123456"] is a hit, found by this stage when the
    first two find nothing. *)
Theorem leet_stage_rule :
  (forall pw wordset,
     scan_verbatim (Str.lower pw) wordset = None ->
     scan_words (Str.rev (Str.lower pw)) wordset = None ->
     contains_dictionary pw wordset = Ok (leet_stage_spec wordset (Str.lower pw))) /\
  (forall wordset normalized leet_changes rest,
     MAX_LEET_SUBSTITUTION < leet_changes ->
     scan_leet wordset normalized leet_changes rest = Ok (false, EmptyString)) /\
  (forall wordset,
     In "dragon" wordset ->
     (exists msg, contains_dictionary "dr4g0n123456" wordset = Ok (true, msg)) /\
     (scan_verbatim "dr4g0n123456" wordset = None ->
      scan_words (Str.rev "dr4g0n123456") wordset = None ->
      exists w, In w wordset /\
        scan_leet wordset EmptyString 0 "dr4g0n123456" = Ok (true, word_msg w) /\
        contains_dictionary "dr4g0n123456" wordset = Ok (true, word_msg w))) /\
  substitutions "dr4g0n" = 2 /\
  contains_dictionary "dr4g0n123456" ["dragon"] =
    Ok (true, "contains dictionary word 'dragon'").
Proof.
  split; [|split; [|split; [|split]]].
  - intros pw wordset H1 H2. unfold contains_dictionary.
    rewrite H1, H2. apply scan_leet_spec.
  - intros. now apply scan_leet_over_budget.
  - intros wordset Hin.
    assert (embedded "dr4g0n123456" wordset) as Hemb.
    { right. right. exists 6, "dragon". repeat split; try assumption.
      all: vm_compute; try reflexivity; lia. }
    apply contains_dictionary_hit_iff in Hemb as [msg Hmsg].
    split; [eauto|]. intros H1 H2.
    unfold contains_dictionary in Hmsg.
    change (Str.lower "dr4g0n123456") with "dr4g0n123456" in Hmsg.
    rewrite H1, H2 in Hmsg.
    unfold contains_dictionary.
    change (Str.lower "dr4g0n123456") with "dr4g0n123456".
    rewrite H1, H2. rewrite Hmsg.
    rewrite scan_leet_spec in Hmsg. unfold leet_stage_spec in Hmsg.
    destruct (first_check _ _) as [w|] eqn:E; [|discriminate].
    apply first_check_Some in E as (k & _ & E). unfold leet_check in E.
    destruct (_ <=? _); [|discriminate].
    apply scan_words_Some in E as [Hw _].
    injection Hmsg as <-. eauto.
  - vm_compute. reflexivity.
  - vm_compute. reflexivity.
Qed.

Lemma leet_stage_rule_witness :
  contains_dictionary "dr4g0n123456" ["dragon"; "unicorn"] =
  Ok (leet_stage_spec ["dragon"; "unicorn"] (Str.lower "dr4g0n123456")).
Proof.
  apply (proj1 leet_stage_rule "dr4g0n123456" ["dragon"; "unicorn"]);
    vm_compute; reflexivity.
Defined.


Lemma isin_empty s : Str.isin EmptyString s = true.
Proof. destruct s; reflexivity. Qed.







(** ** The dictionary loader *)

Module StripFacts.
Import Str.



End StripFacts.

Lemma elem_of_add_line words line w :
  w ∈ add_line words line <-> w ∈ words \/ word_of line w.
Proof.
  unfold add_line, word_of.
  destruct (MIN_DICT_WORD_LEN <=? Str.len _) eqn:E.
  - apply Nat.leb_le in E. rewrite elem_of_union, elem_of_singleton. split.
    + intros [->|H]; auto.
    + intros [H|[-> _]]; auto.
  - apply Nat.leb_gt in E. split; [auto|].
    intros [H|[-> H]]; [assumption | lia].
Qed.

Lemma elem_of_add_lines lines : forall words w,
  w ∈ foldl add_line words lines <->
  w ∈ words \/ exists line, In line lines /\ word_of line w.
Proof.
  induction lines as [|l lines IH]; intros words w; cbn [foldl].
  - split; [auto | intros [H|(? & [] & _)]; assumption].
  - rewrite IH, elem_of_add_line. split.
    + intros [[H|H]|(line & Hin & H)]; [auto | right; exists l | right; exists line];
        split; auto; now (left + right).
    + intros [H|(line & [<-|Hin] & H)]; [auto | auto | right; eauto].
Qed.

Lemma load_paths_spec fs paths : forall words,
  available fs paths ->
  exists result,
    load_paths fs paths words = Ok result /\
    forall w, w ∈ result <->
      w ∈ words \/
      exists p lines line,
        In p paths /\ fs p = Lines lines /\ In line lines /\ word_of line w.
Proof.
  induction paths as [|p paths IH]; intros words Hav; cbn [load_paths].
  - exists words. split; [reflexivity|]. intros w. split; [auto|].
    intros [H|(? & ? & ? & [] & _)]. exact H.
  - assert (available fs paths) as Hav' by (intros q e Hq; apply Hav; now right).
    unfold open. destruct (fs p) as [lines|code] eqn:E.
    + destruct (IH (foldl add_line words lines) Hav') as (result & -> & Hres).
      exists result. split; [reflexivity|]. intros w.
      rewrite Hres, elem_of_add_lines. split.
      * intros [[H|(line & Hin & H)]|(q & ls & line & Hq & Hfs & Hin & H)].
        -- now left.
        -- right. exists p, lines, line. split; [now left | auto].
        -- right. exists q, ls, line. split; [now right | auto].
      * intros [H|(q & ls & line & [<-|Hq] & Hfs & Hin & H)].
        -- auto.
        -- rewrite E in Hfs. injection Hfs as <-. left. right. eauto.
        -- right. exists q, ls, line. auto.
    + rewrite (Hav p code (or_introl eq_refl) E).
      destruct (IH words Hav') as (result & -> & Hres).
      exists result. split; [reflexivity|]. intros w. rewrite Hres. split.
      * intros [H|(q & ls & line & Hq & Hfs & Hin & H)]; [auto|].
        right. exists q, ls, line. split; [now right | auto].
      * intros [H|(q & ls & line & [<-|Hq] & Hfs & Hin & H)]; [auto | congruence |].
        right. exists q, ls, line. auto.
Qed.

Lemma load_paths_available fs paths : forall words result,
  load_paths fs paths words = Ok result -> available fs paths.
Proof.
  induction paths as [|p paths IH]; intros words result; cbn [load_paths].
  - intros _ q code [].
  - unfold open. destruct (fs p) as [lines|code] eqn:E.
    + intros H q c [<-|Hq] Hfs; [congruence | exact (IH _ _ H q c Hq Hfs)].
    + destruct (loader_catches (os_error code p)) eqn:Hc; [|discriminate].
      intros H q c [<-|Hq] Hfs; [congruence | exact (IH _ _ H q c Hq Hfs)].
Qed.

Lemma load_paths_raises fs paths : forall words e,
  load_paths fs paths words = Raise e ->
  loader_catches e = false /\
  exists p code, In p paths /\ fs p = OpenFails code /\ e = os_error code p.
Proof.
  induction paths as [|p paths IH]; intros words e; cbn [load_paths]; [discriminate|].
  unfold open. destruct (fs p) as [lines|code] eqn:E.
  - intros H. destruct (IH _ _ H) as (? & q & c & ? & ?). split; [assumption|].
    exists q, c. split; [now right | assumption].
  - destruct (loader_catches (os_error code p)) eqn:Hc.
    + intros H. destruct (IH _ _ H) as (? & q & c & ? & ?). split; [assumption|].
      exists q, c. split; [now right | assumption].
    + intros [= <-]. split; [assumption|]. exists p, code. split; [now left | auto].
Qed.

(** *** Trimming and lowercasing in the words of the contract *)






















(** ** The session *)

Lemma pair_induction (P : list string -> Prop) :
  P [] -> (forall x, P [x]) -> (forall x y l, P l -> P (x :: y :: l)) ->
  forall l, P l.
Proof.
  intros H0 H1 H2 l.
  assert (P l /\ forall x, P (x :: l)) as [H _]; [|exact H].
  induction l as [|a l [IHl IHc]]; split; auto.
Qed.



Lemma set_system_password_fails subprocess_run password w :
  set_system_password subprocess_run password w =
  (Ok false, emit (Print "Error running passwd: name 'bbpassword' is not defined") w).
Proof. reflexivity. Qed.


Lemma main_loop_never_succeeds subprocess_run wordset tty : forall w,
  fst (main_loop (set_system_password subprocess_run) wordset tty w) = Raise EOFError.
Proof.
  induction tty as [|x|x y rest IH] using pair_induction;
    intros w; cbn [main_loop]; try reflexivity.
  destruct (negb (String.eqb x y)); [apply IH|].
  destruct (check_password_strength_total x wordset) as (reasons & ->).
  destruct reasons as [|r rs]; [|apply IH].
  rewrite set_system_password_fails. apply IH.
Qed.

(** *** What a session with the applier of the source can add to the trace *)

Lemma extends_refl w : extends w w.
Proof. exists []. split; [now rewrite List.app_nil_r | constructor]. Qed.

Lemma extends_trans w1 w2 w3 : extends w1 w2 -> extends w2 w3 -> extends w1 w3.
Proof.
  intros (e1 & H1 & F1) (e2 & H2 & F2). exists (e1 ++ e2). split.
  - now rewrite H2, H1, List.app_assoc.
  - apply Forall_app. auto.
Qed.

Lemma extends_emit e w : harmless e -> extends w (emit e w).
Proof. intros H. exists [e]. split; [reflexivity | now constructor]. Qed.

Lemma extends_print_reasons reasons : forall w, extends w (print_reasons reasons w).
Proof.
  unfold print_reasons.
  induction reasons as [|r rs IH]; intros w; cbn [fold_left]; [apply extends_refl|].
  eapply extends_trans; [|apply IH]. apply extends_emit.
  unfold harmless, updated. simpl. intros H. discriminate H.
Qed.

Ltac harmless_event :=
  apply extends_emit; vm_compute; first [exact I | intros H; discriminate H].

(** Peels the newest events off the world on the right. *)
Ltac harmless_steps :=
  repeat (eapply extends_trans; [|harmless_event]); try apply extends_refl.

Lemma main_loop_extends subprocess_run wordset tty : forall w,
  extends w (snd (main_loop (set_system_password subprocess_run) wordset tty w)).
Proof.
  induction tty as [|x|x y rest IH] using pair_induction; intros w; cbn [main_loop].
  - cbn [snd]. harmless_steps.
  - cbn [snd]. harmless_steps.
  - destruct (negb (String.eqb x y)).
    { eapply extends_trans; [|apply IH]. harmless_steps. }
    destruct (check_password_strength x wordset) as [[|r rs]|e]; cbn [snd].
    + rewrite set_system_password_fails.
      eapply extends_trans; [|apply IH]. harmless_steps.
    + eapply extends_trans; [|apply IH]. harmless_steps.
      eapply extends_trans; [|apply extends_print_reasons]. harmless_steps.
    + harmless_steps.
Qed.

Lemma banner_marker w :
  marker_exists (fold_left (fun w s => emit (Print s) w) banner w) = marker_exists w.
Proof. reflexivity. Qed.

Lemma banner_extends w :
  extends w (fold_left (fun w s => emit (Print s) w) banner w).
Proof. cbn [fold_left banner]. harmless_steps. Qed.


(** ** Claims about the session *)

(** C4: [set_system_password] returns [False] for every password: the name
    [bbpassword] is bound nowhere, the [NameError] is caught by the handler
    of the function, which prints the diagnostic and returns [False]; the
    [passwd] process is not even started.  So the loop of [main] never
    leaves through the success branch: it ends only when no input is left,
    [main] never exits with code 0 and never prints that the password has
    been updated. *)
Theorem update_never_succeeds :
  (forall subprocess_run password w,
     set_system_password subprocess_run password w =
     (Ok false,
      emit (Print "Error running passwd: name 'bbpassword' is not defined") w)) /\
  (forall subprocess_run wordset tty w,
     fst (main_loop (set_system_password subprocess_run) wordset tty w) =
     Raise EOFError) /\
  (forall subprocess_run set_iter tty w,
     fst (main subprocess_run set_iter tty w) <> Raise (SystemExit 0)) /\
  (forall subprocess_run set_iter tty w,
     extends w (snd (main subprocess_run set_iter tty w))).
Proof.
  split; [exact set_system_password_fails|].
  split; [intros; apply main_loop_never_succeeds|].
  split.
  - intros subprocess_run set_iter tty w. unfold main, main_with.
    destruct (marker_exists w); [discriminate|].
    destruct (load_word_set _ _) as [wordset|e] eqn:E.
    + rewrite main_loop_never_succeeds. discriminate.
    + apply load_paths_raises in E as (_ & p & code & _ & _ & ->).
      destruct code; discriminate.
  - intros subprocess_run set_iter tty w. unfold main, main_with.
    destruct (marker_exists w); cbn [snd]; [harmless_steps|].
    destruct (load_word_set _ _) as [wordset|e]; cbn [snd].
    + eapply extends_trans; [|apply main_loop_extends]. apply banner_extends.
    + apply banner_extends.
Qed.



(** * Further properties of the code *)

(** ** Reversal, prefixes and slices *)

Module RevFacts.
Import Str.

Lemma rev_snoc s c : rev (snoc s c) = String c (rev s).
Proof.
  unfold snoc. induction s as [|a s IH]; [reflexivity|].
  cbn [Str.app rev]. rewrite IH. reflexivity.
Qed.

Lemma rev_app s t : rev (s +++ t) = rev t +++ rev s.
Proof.
  induction s as [|a s IH]; cbn [Str.app rev].
  - now rewrite StrFacts.app_nil_r.
  - rewrite IH. unfold snoc. now rewrite StrFacts.app_assoc.
Qed.

Lemma rev_involutive s : rev (rev s) = s.
Proof.
  induction s as [|a s IH]; [reflexivity|].
  cbn [rev]. now rewrite rev_snoc, IH.
Qed.

Lemma rev_map f s : rev (map f s) = map f (rev s).
Proof.
  induction s as [|a s IH]; [reflexivity|].
  cbn [map rev]. unfold snoc. now rewrite IH, StrFacts.map_app.
Qed.

Lemma len_rev s : len (rev s) = len s.
Proof.
  induction s as [|a s IH]; [reflexivity|].
  cbn [rev len]. unfold snoc. rewrite StrFacts.len_app, IH. cbn [len]. lia.
Qed.

Lemma isin_rev_true w s : isin w s = true -> isin (rev w) (rev s) = true.
Proof.
  intros (pre & post & ->)%StrFacts.isin_spec. apply StrFacts.isin_spec.
  exists (rev post), (rev pre). now rewrite !rev_app, StrFacts.app_assoc.
Qed.

(** [w[::-1] in s[::-1]] is [w in s]. *)
Lemma isin_rev w s : isin (rev w) (rev s) = isin w s.
Proof.
  destruct (isin w s) eqn:E.
  - now apply isin_rev_true.
  - destruct (isin (rev w) (rev s)) eqn:E'; [|reflexivity].
    apply isin_rev_true in E'. rewrite !rev_involutive in E'. congruence.
Qed.

Lemma isin_rev_l w s : isin w (rev s) = isin (rev w) s.
Proof. rewrite <- (rev_involutive w) at 1. apply isin_rev. Qed.

Lemma isin_prefix a b s : isin (a +++ b) s = true -> isin a s = true.
Proof.
  intros (pre & post & ->)%StrFacts.isin_spec. apply StrFacts.isin_spec.
  exists pre, (b +++ post). now rewrite StrFacts.app_assoc.
Qed.

Lemma isin_suffix a b s : isin (a +++ b) s = true -> isin b s = true.
Proof.
  intros (pre & post & ->)%StrFacts.isin_spec. apply StrFacts.isin_spec.
  exists (pre +++ a), post. now rewrite !StrFacts.app_assoc.
Qed.

Lemma take_app_le k s t : k <= len s -> take k (s +++ t) = take k s.
Proof.
  unfold take. revert k. induction s as [|a s IH]; intros k Hk; cbn [len] in Hk.
  - assert (k = 0) as -> by lia. destruct t; reflexivity.
  - destruct k as [|k]; [reflexivity|].
    cbn [Str.app slice]. rewrite IH by lia. reflexivity.
Qed.

Lemma len_slice i l s : i + l <= len s -> len (slice i l s) = l.
Proof.
  revert i l. induction s as [|a s IH]; intros i l H; cbn [len] in H.
  - assert (l = 0) as -> by lia. destruct i; reflexivity.
  - destruct i as [|i].
    + destruct l as [|l]; [reflexivity|].
      cbn [slice len]. rewrite IH by lia. reflexivity.
    + cbn [slice]. apply IH. lia.
Qed.

(** A slice that is one longer is the slice and one more character. *)
Lemma slice_succ i l s :
  i + S l <= len s -> exists c, slice i (S l) s = snoc (slice i l s) c.
Proof.
  revert i l. induction s as [|a s IH]; intros i l H; cbn [len] in H; [lia|].
  destruct i as [|i].
  - destruct l as [|l].
    + destruct s as [|b s]; exists a; reflexivity.
    + destruct (IH 0 l ltac:(lia)) as [c Hc]. exists c.
      change (slice 0 (S (S l)) (String a s)) with (String a (slice 0 (S l) s)).
      rewrite Hc. reflexivity.
  - destruct (IH i l ltac:(lia)) as [c Hc]. exists c.
    change (slice (S i) (S l) (String a s)) with (slice i (S l) s).
    rewrite Hc. destruct l; reflexivity.
Qed.

End RevFacts.

(** ** The pattern detector *)

Lemma scan_windows_nil pw seq l offsets :
  scan_windows pw seq l offsets = [] <->
  forall i, In i offsets -> window_hit pw seq l i = false.
Proof.
  unfold window_hit. induction offsets as [|i rest IH]; cbn [scan_windows].
  - split; [intros _ i [] | reflexivity].
  - destruct (_ || _) eqn:E.
    + split; [discriminate|]. intros H. specialize (H i (or_introl eq_refl)). congruence.
    + rewrite IH. split.
      * intros H j [<-|Hj]; [exact E | now apply H].
      * intros H j Hj. apply H. now right.
Qed.

Lemma scan_windows_first pw seq l : forall before i after,
  (forall j, In j before -> window_hit pw seq l j = false) ->
  window_hit pw seq l i = true ->
  scan_windows pw seq l (before ++ i :: after) = [weak_issue (Str.slice i l seq)].
Proof.
  unfold window_hit. induction before as [|j before IH]; intros i after Hmiss Hhit.
  - cbn [List.app scan_windows]. now rewrite Hhit.
  - cbn [List.app scan_windows]. rewrite (Hmiss j (or_introl eq_refl)).
    apply IH; [|exact Hhit]. intros k Hk. apply Hmiss. now right.
Qed.

Lemma window_range_In seq l i :
  In i (window_range seq l) <-> i + l <= Str.len seq.
Proof. unfold window_range. rewrite in_seq. lia. Qed.

Lemma window_range_split seq l i :
  i + l <= Str.len seq ->
  window_range seq l = List.seq 0 i ++ i :: List.seq (S i) (Str.len seq - l - i).
Proof.
  intros H. unfold window_range.
  replace (Str.len seq + 1 - l) with (i + S (Str.len seq - l - i)) by lia.
  rewrite seq_app. reflexivity.
Qed.

Lemma flat_map_nil {A B : Type} (f : A -> list B) (l : list A) :
  flat_map f l = [] <-> forall x, In x l -> f x = [].
Proof.
  induction l as [|a l IH]; cbn [flat_map].
  - split; [intros _ x [] | reflexivity].
  - split.
    + intros H. apply app_eq_nil in H as [Ha Hl].
      intros x [<-|Hx]; [exact Ha | now apply IH].
    + intros H. rewrite (H a (or_introl eq_refl)).
      apply IH. intros x Hx. apply H. now right.
Qed.

Lemma window_hit_shorter pw seq l i :
  i + S l <= Str.len seq ->
  window_hit pw seq (S l) i = true -> window_hit pw seq l i = true.
Proof.
  unfold window_hit. intros Hi.
  destruct (RevFacts.slice_succ i l seq Hi) as [c ->].
  rewrite RevFacts.rev_snoc. unfold Str.snoc.
  intros [H|H]%orb_true_iff; apply orb_true_iff.
  - left. eapply RevFacts.isin_prefix, H.
  - right. change (String c (Str.rev (Str.slice i l seq)))
      with (String c EmptyString +++ Str.rev (Str.slice i l seq)) in H.
    eapply RevFacts.isin_suffix, H.
Qed.

Lemma scan_sequence_nil pw seq :
  scan_sequence pw seq = [] <->
  forall i, i + 4 <= Str.len seq -> window_hit pw seq 4 i = false.
Proof.
  unfold scan_sequence. rewrite flat_map_nil. split.
  - intros H i Hi. specialize (H 4 (or_introl eq_refl)).
    rewrite scan_windows_nil in H. apply H, window_range_In, Hi.
  - intros H l [<-|[<-|[]]]; apply scan_windows_nil; intros i Hi%window_range_In.
    + now apply H.
    + destruct (window_hit pw seq 5 i) eqn:E; [|reflexivity].
      apply window_hit_shorter in E; [|exact Hi]. rewrite H in E by lia. discriminate.
Qed.

Lemma obvious_patterns_nil password :
  obvious_patterns password = [] <->
  search_repeat (Str.lower password) = false /\
  forall seq i, In seq sequences -> i + 4 <= Str.len seq ->
    window_hit (Str.lower password) seq 4 i = false.
Proof.
  unfold obvious_patterns. split.
  - intros H. apply app_eq_nil in H as [Hrep Hweak].
    split; [destruct (search_repeat _); [discriminate | reflexivity]|].
    rewrite flat_map_nil in Hweak. intros seq i Hseq Hi.
    specialize (Hweak seq Hseq). rewrite scan_sequence_nil in Hweak. now apply Hweak.
  - intros [-> Hweak]. cbn [List.app]. apply flat_map_nil. intros seq Hseq.
    apply scan_sequence_nil. intros i Hi. now apply Hweak.
Qed.

(** X1: the detector is silent exactly when the lowercased password has no
    run of four identical characters (other than line feeds) and holds no
    window of length 4 of a reference string, forwards or backwards; the
    windows of length 5 add nothing to this. *)
Theorem detector_silent_iff (password : string) :
  obvious_patterns password = [] <->
  (forall pre c post, c <> Str.nl -> Str.lower password <> pre +++ run c post) /\
  (forall seq i, In seq sequences -> i + 4 <= Str.len seq ->
     Str.isin (Str.slice i 4 seq) (Str.lower password) = false /\
     Str.isin (Str.rev (Str.slice i 4 seq)) (Str.lower password) = false).
Proof.
  rewrite obvious_patterns_nil. split.
  - intros [Hrep Hweak]. split.
    + intros pre c post Hc Heq.
      assert (search_repeat (Str.lower password) = true) as H
        by (apply search_repeat_spec; eauto).
      congruence.
    + intros seq i Hseq Hi. specialize (Hweak seq i Hseq Hi).
      unfold window_hit in Hweak. now apply orb_false_iff in Hweak.
  - intros [Hrep Hweak]. split.
    + destruct (search_repeat _) eqn:E; [|reflexivity].
      apply search_repeat_spec in E as (pre & c & post & Hc & E).
      destruct (Hrep pre c post Hc E).
    + intros seq i Hseq Hi. destruct (Hweak seq i Hseq Hi) as [H1 H2].
      unfold window_hit. now rewrite H1, H2.
Qed.

(** X2: the issue of a scan names the first window that matches: when the
    window at offset [i] (or its reversal) occurs in the password and no
    window at a smaller offset does, the scan of that length reports the
    window at [i] and nothing else. *)
Theorem first_window_reported (pw seq : string) (l i : nat) :
  i + l <= Str.len seq ->
  window_hit pw seq l i = true ->
  (forall j, j < i -> window_hit pw seq l j = false) ->
  scan_windows pw seq l (window_range seq l) = [weak_issue (Str.slice i l seq)].
Proof.
  intros Hi Hhit Hmiss. rewrite (window_range_split seq l i Hi).
  apply scan_windows_first; [|exact Hhit].
  intros j Hj%in_seq. apply Hmiss. lia.
Qed.

Lemma first_window_reported_witness :
  scan_windows "my-ytrewq-pw" "qwertyuiop" 4 (window_range "qwertyuiop" 4) =
  [weak_issue (Str.slice 0 4 "qwertyuiop")].
Proof.
  apply (first_window_reported "my-ytrewq-pw" "qwertyuiop" 4 0).
  - vm_compute. lia.
  - vm_compute. reflexivity.
  - intros j Hj. lia.
Defined.

(** X3: an issue for a window of length 5 never comes alone: a scan of one
    reference string gives no issue, or one issue for a window of length 4,
    or that issue followed by one for a window of length 5. *)
Theorem five_never_alone (pw seq : string) :
  scan_sequence pw seq = [] \/
  (exists i, i + 4 <= Str.len seq /\
     scan_sequence pw seq = [weak_issue (Str.slice i 4 seq)]) \/
  (exists i j, i + 4 <= Str.len seq /\ j + 5 <= Str.len seq /\ i <= j /\
     scan_sequence pw seq =
     [weak_issue (Str.slice i 4 seq); weak_issue (Str.slice j 5 seq)]).
Proof.
  assert (forall l, scan_windows pw seq l (window_range seq l) = [] \/
            exists i, i + l <= Str.len seq /\ window_hit pw seq l i = true /\
              (forall j, j < i -> window_hit pw seq l j = false) /\
              scan_windows pw seq l (window_range seq l) =
              [weak_issue (Str.slice i l seq)]) as Hcases.
  { intros l. unfold window_range.
    remember (Str.len seq + 1 - l) as n eqn:Hn.
    assert (forall n, (forall i, i < n -> window_hit pw seq l i = false) \/
              exists i, i < n /\ window_hit pw seq l i = true /\
                forall j, j < i -> window_hit pw seq l j = false) as Hleast.
    { clear n Hn. induction n as [|n [IH|(i & Hi & Hhit & Hmiss)]].
      - left. intros i Hi. lia.
      - destruct (window_hit pw seq l n) eqn:E.
        + right. exists n. repeat split; [lia | exact E | exact IH].
        + left. intros i Hi. destruct (Nat.eq_dec i n) as [->|]; [exact E|].
          apply IH. lia.
      - right. exists i. repeat split; [lia | exact Hhit | exact Hmiss]. }
    destruct (Hleast n) as [Hnone|(i & Hi & Hhit & Hmiss)].
    - left. apply scan_windows_nil. intros i Hi%in_seq. apply Hnone. lia.
    - right. exists i. repeat split; try assumption; [lia|].
      replace n with (i + S (n - S i)) by lia. rewrite seq_app.
      apply scan_windows_first; [|exact Hhit].
      intros j Hj%in_seq. apply Hmiss. lia. }
  unfold scan_sequence. cbn [flat_map]. rewrite List.app_nil_r.
  destruct (Hcases 4) as [H4|(i & Hi & Hhit4 & Hmiss4 & H4)];
    destruct (Hcases 5) as [H5|(j & Hj & Hhit5 & Hmiss5 & H5)]; rewrite H4, H5.
  - now left.
  - exfalso. apply window_hit_shorter in Hhit5; [|exact Hj].
    rewrite scan_windows_nil in H4.
    rewrite (H4 j) in Hhit5 by (apply window_range_In; lia). discriminate.
  - right. left. eauto.
  - right. right. exists i, j. repeat split; try assumption.
    destruct (Nat.le_gt_cases i j) as [Hle|Hgt]; [exact Hle|].
    apply window_hit_shorter in Hhit5; [|exact Hj].
    rewrite (Hmiss4 j Hgt) in Hhit5. discriminate.
Qed.

Lemma rev_run c post : Str.rev (run c post) = Str.rev post +++ run c EmptyString.
Proof.
  unfold run. cbn [Str.rev]. unfold Str.snoc.
  rewrite !StrFacts.app_assoc. reflexivity.
Qed.

Lemma search_repeat_rev_true s :
  search_repeat s = true -> search_repeat (Str.rev s) = true.
Proof.
  intros (pre & c & post & Hc & ->)%search_repeat_spec. apply search_repeat_spec.
  exists (Str.rev post), c, (Str.rev pre). split; [exact Hc|].
  rewrite RevFacts.rev_app, rev_run, StrFacts.app_assoc. reflexivity.
Qed.

Lemma search_repeat_rev s : search_repeat (Str.rev s) = search_repeat s.
Proof.
  destruct (search_repeat s) eqn:E.
  - now apply search_repeat_rev_true.
  - destruct (search_repeat (Str.rev s)) eqn:E'; [|reflexivity].
    apply search_repeat_rev_true in E'. rewrite RevFacts.rev_involutive in E'. congruence.
Qed.

Lemma window_hit_rev pw seq l i : window_hit (Str.rev pw) seq l i = window_hit pw seq l i.
Proof.
  unfold window_hit.
  rewrite RevFacts.isin_rev, RevFacts.isin_rev_l. apply orb_comm.
Qed.

Lemma scan_windows_rev pw seq l offsets :
  scan_windows (Str.rev pw) seq l offsets = scan_windows pw seq l offsets.
Proof.
  induction offsets as [|i rest IH]; [reflexivity|].
  cbn [scan_windows]. fold (window_hit (Str.rev pw) seq l i). fold (window_hit pw seq l i).
  now rewrite window_hit_rev, IH.
Qed.

(** X4: the detector does not tell a text from its reversal: two passwords
    whose lowercased forms are the reversal of one another get the same
    issues, naming the same chunks. *)
Theorem detector_reversal (password reversed : string) :
  Str.lower reversed = Str.rev (Str.lower password) ->
  obvious_patterns reversed = obvious_patterns password.
Proof.
  intros Hrev. unfold obvious_patterns. rewrite Hrev, search_repeat_rev.
  f_equal. apply flat_map_ext. intros seq. unfold scan_sequence.
  apply flat_map_ext. intros l. apply scan_windows_rev.
Qed.

Lemma detector_reversal_witness :
  obvious_patterns "7-REWQ-wp" = obvious_patterns "Pw-Qwer-7".
Proof.
  apply (detector_reversal "Pw-Qwer-7" "7-REWQ-wp").
  vm_compute. reflexivity.
Defined.

Lemma window_hit_padded pw seq l i pre post :
  window_hit pw seq l i = true -> window_hit (pre +++ pw +++ post) seq l i = true.
Proof.
  unfold window_hit. intros [H|H]%orb_true_iff; apply orb_true_iff; [left|right];
    apply StrFacts.isin_app_r, StrFacts.isin_app_l, H.
Qed.

Lemma search_repeat_padded s pre post :
  search_repeat s = true -> search_repeat (pre +++ s +++ post) = true.
Proof.
  intros (a & c & b & Hc & ->)%search_repeat_spec. apply search_repeat_spec.
  exists (pre +++ a), c, (b +++ post). split; [exact Hc|].
  unfold run. rewrite !StrFacts.app_assoc. reflexivity.
Qed.

(** X5: text around a flagged text never silences the detector: when the
    lowercased form of a longer password holds the lowercased form of a
    password that gets an issue, the longer password gets an issue too. *)
Theorem detector_padding (password longer pre post : string) :
  Str.lower longer = pre +++ Str.lower password +++ post ->
  obvious_patterns password <> [] ->
  exists issue more, obvious_patterns longer = issue :: more.
Proof.
  intros Hlonger Hflag.
  destruct (obvious_patterns longer) as [|issue more] eqn:Hnil; [|eauto].
  exfalso. apply Hflag.
  apply obvious_patterns_nil in Hnil as [Hrep Hweak].
  rewrite Hlonger in Hrep, Hweak.
  apply obvious_patterns_nil. split.
  - destruct (search_repeat (Str.lower password)) eqn:E; [|reflexivity].
    apply (search_repeat_padded _ pre post) in E. congruence.
  - intros seq i Hseq Hi.
    destruct (window_hit (Str.lower password) seq 4 i) eqn:E; [|reflexivity].
    apply (window_hit_padded _ _ _ _ pre post) in E.
    rewrite (Hweak seq i Hseq Hi) in E. discriminate.
Qed.

Lemma detector_padding_witness :
  exists issue more, obvious_patterns "Zx9#QWER!Kp2" = issue :: more.
Proof.
  apply (detector_padding "qWeR" "Zx9#QWER!Kp2" "zx9#" "!kp2").
  - vm_compute. reflexivity.
  - vm_compute. discriminate.
Defined.

(** ** The dictionary matcher *)

Lemma isin_empty_text w : Str.isin w EmptyString = true -> w = EmptyString.
Proof. destruct w; [reflexivity | discriminate]. Qed.

(** X6: a hit names a word of the word set that really is in the password
    in the way the message says: verbatim (and then of length 4 or more) or
    in a normalized prefix within the budget for "dictionary word", reversed
    for "reversed dictionary word", the latter only when no word of length
    4 or more occurs verbatim. *)
Theorem hit_is_sound (pw : string) (wordset : list string) (msg : string) :
  contains_dictionary pw wordset = Ok (true, msg) ->
  exists w, In w wordset /\
    ((msg = word_msg w /\
      ((MIN_DICT_WORD_LEN <= Str.len w /\ Str.isin w (Str.lower pw) = true) \/
       (exists k, 1 <= k <= Str.len (Str.lower pw) /\
          substitutions (Str.take k (Str.lower pw)) <= MAX_LEET_SUBSTITUTION /\
          Str.isin w (normalize (Str.take k (Str.lower pw))) = true))) \/
     (msg = reversed_msg w /\
      Str.isin w (Str.rev (Str.lower pw)) = true /\
      forall w', In w' wordset -> MIN_DICT_WORD_LEN <= Str.len w' ->
        Str.isin w' (Str.lower pw) = false)).
Proof.
  unfold contains_dictionary.
  destruct (scan_verbatim _ _) as [w|] eqn:E1.
  { intros [= <-]. apply scan_verbatim_Some in E1 as (? & ? & ?).
    exists w. split; [assumption|]. left. split; [reflexivity|]. left. auto. }
  destruct (scan_words _ _) as [w|] eqn:E2.
  { intros [= <-]. apply scan_words_Some in E2 as (? & ?).
    exists w. split; [assumption|]. right. split; [reflexivity|]. split; [assumption|].
    now apply scan_verbatim_None. }
  rewrite scan_leet_spec. unfold leet_stage_spec.
  destruct (first_check _ _) as [w|] eqn:E3; [|discriminate].
  intros [= <-]. apply first_check_Some in E3 as (k & Hk%in_seq & E3).
  unfold leet_check in E3. destruct (_ <=? _) eqn:Hb; [|discriminate].
  apply Nat.leb_le in Hb. apply scan_words_Some in E3 as (? & ?).
  exists w. split; [assumption|]. left. split; [reflexivity|]. right.
  exists k. repeat split; try assumption; lia.
Qed.

Lemma hit_is_sound_witness :
  exists w, In w ["dragon"; "tiger"] /\
    (("contains reversed dictionary word 'tiger'" = word_msg w /\
      ((MIN_DICT_WORD_LEN <= Str.len w /\ Str.isin w (Str.lower "My-Regit-99") = true) \/
       (exists k, 1 <= k <= Str.len (Str.lower "My-Regit-99") /\
          substitutions (Str.take k (Str.lower "My-Regit-99")) <= MAX_LEET_SUBSTITUTION /\
          Str.isin w (normalize (Str.take k (Str.lower "My-Regit-99"))) = true))) \/
     ("contains reversed dictionary word 'tiger'" = reversed_msg w /\
      Str.isin w (Str.rev (Str.lower "My-Regit-99")) = true /\
      forall w', In w' ["dragon"; "tiger"] -> MIN_DICT_WORD_LEN <= Str.len w' ->
        Str.isin w' (Str.lower "My-Regit-99") = false)).
Proof.
  apply (hit_is_sound "My-Regit-99" ["dragon"; "tiger"]).
  vm_compute. reflexivity.
Defined.

Lemma embedded_suffix pw longer suffix wordset :
  Str.lower longer = Str.lower pw +++ suffix ->
  embedded pw wordset -> embedded longer wordset.
Proof.
  unfold embedded. cbv zeta. intros ->. rewrite RevFacts.rev_app.
  intros [(w & Hw & Hl & H)|[(w & Hw & H)|(k & w & Hk & Hs & Hw & H)]].
  - left. exists w. repeat split; try assumption. now apply StrFacts.isin_app_l.
  - right. left. exists w. split; [assumption|]. now apply StrFacts.isin_app_r.
  - right. right. exists k, w. rewrite RevFacts.take_app_le by lia.
    repeat split; try assumption; try lia.
    rewrite StrFacts.len_app. lia.
Qed.

(** X7: text after a flagged text never clears a dictionary hit: when the
    lowercased form of a longer password starts with the lowercased form of
    a password that the matcher flags, the longer password is flagged
    too. *)
Theorem hit_survives_suffix (pw longer suffix : string) (wordset : list string)
    (msg : string) :
  Str.lower longer = Str.lower pw +++ suffix ->
  contains_dictionary pw wordset = Ok (true, msg) ->
  exists msg', contains_dictionary longer wordset = Ok (true, msg').
Proof.
  intros Hlonger H. apply contains_dictionary_hit_iff.
  apply (embedded_suffix pw longer suffix); [exact Hlonger|].
  apply contains_dictionary_hit_iff. eauto.
Qed.

Lemma hit_survives_suffix_witness :
  exists msg', contains_dictionary "Dr4g0n!!!Zq7$x" ["dragon"] = Ok (true, msg').
Proof.
  apply (hit_survives_suffix "dR4G0n" "Dr4g0n!!!Zq7$x" "!!!zq7$x" ["dragon"]
           "contains dictionary word 'dragon'").
  - vm_compute. reflexivity.
  - vm_compute. reflexivity.
Defined.

(** X8: the empty word matches everything: with the empty string in the
    word set every password, the empty one too, is a hit; and the empty
    password is a hit only then, reported as a reversed match of the empty
    word. *)
Theorem empty_word_rule :
  (forall pw wordset,
     In EmptyString wordset ->
     exists msg, contains_dictionary pw wordset = Ok (true, msg)) /\
  (forall wordset msg,
     contains_dictionary EmptyString wordset = Ok (true, msg) ->
     In EmptyString wordset /\ msg = reversed_msg EmptyString) /\
  (forall wordset,
     ~ In EmptyString wordset ->
     contains_dictionary EmptyString wordset = Ok (false, EmptyString)).
Proof.
  assert (forall wordset msg,
            contains_dictionary EmptyString wordset = Ok (true, msg) ->
            In EmptyString wordset /\ msg = reversed_msg EmptyString) as Hempty.
  { intros wordset msg. unfold contains_dictionary. cbn [Str.lower Str.map Str.rev].
    destruct (scan_verbatim _ _) as [w|] eqn:E1.
    { apply scan_verbatim_Some in E1 as (_ & Hl & ->%isin_empty_text).
      cbn in Hl. unfold MIN_DICT_WORD_LEN in Hl. lia. }
    destruct (scan_words _ _) as [w|] eqn:E2.
    { apply scan_words_Some in E2 as (Hw & ->%isin_empty_text).
      intros [= <-]. auto. }
    discriminate. }
  split; [|split].
  - intros pw wordset Hin. apply contains_dictionary_hit_iff.
    right. left. exists EmptyString. split; [exact Hin | apply isin_empty].
  - exact Hempty.
  - intros wordset Hnot.
    destruct (contains_dictionary_total EmptyString wordset) as ([] & msg & H).
    + destruct (Hempty _ _ H) as [Hin _]. contradiction.
    + rewrite H. now apply contains_dictionary_miss in H as ->.
Qed.

Lemma empty_word_rule_witness :
  exists msg, contains_dictionary "Tr7#kVm2q!Zx" ["dragon"; EmptyString] = Ok (true, msg).
Proof.
  apply (proj1 empty_word_rule "Tr7#kVm2q!Zx" ["dragon"; EmptyString]).
  simpl. tauto.
Defined.

Module AnyFacts.
Import Str.

Lemma any_app p s t : any p (s +++ t) = any p s || any p t.
Proof.
  induction s as [|a s IH]; cbn [Str.app any]; [reflexivity|].
  now rewrite IH, orb_assoc.
Qed.

Lemma any_rev p s : any p (rev s) = any p s.
Proof.
  induction s as [|a s IH]; [reflexivity|].
  cbn [rev any]. unfold snoc. rewrite any_app, IH. cbn [any].
  rewrite orb_false_r. apply orb_comm.
Qed.

Lemma any_isin p w s : isin w s = true -> any p w = true -> any p s = true.
Proof.
  intros (pre & post & ->)%StrFacts.isin_spec Hw.
  rewrite !any_app, Hw. now rewrite orb_true_r.
Qed.

Lemma any_take p k s : any p (take k s) = true -> any p s = true.
Proof.
  unfold take. revert k. induction s as [|a s IH]; intros k.
  - destruct k; discriminate.
  - destruct k as [|k]; [discriminate|].
    cbn [slice any]. intros [->|H]%orb_true_iff; [reflexivity|].
    rewrite (IH k H). apply orb_true_r.
Qed.

Lemma any_map_false p f s :
  (forall c, p c = false -> p (f c) = false) ->
  any p s = false -> any p (map f s) = false.
Proof.
  intros Hf. induction s as [|a s IH]; [reflexivity|].
  cbn [map any]. intros [Ha Hs]%orb_false_iff.
  now rewrite (Hf a Ha), IH.
Qed.

End AnyFacts.

Lemma changed_by_lower_lower c : changed_by_lower (Str.lower_char c) = false.
Proof.
  unfold changed_by_lower. rewrite StrFacts.lower_char_idem.
  now rewrite Ascii.eqb_refl.
Qed.

Lemma lower_uncased s : Str.any changed_by_lower (Str.lower s) = false.
Proof.
  unfold Str.lower. induction s as [|a s IH]; [reflexivity|].
  cbn [Str.map Str.any]. now rewrite changed_by_lower_lower, IH.
Qed.

Lemma normalize_char_uncased c :
  changed_by_lower c = false -> changed_by_lower (normalize_char c) = false.
Proof. destruct c as [[] [] [] [] [] [] [] []]; vm_compute; congruence. Qed.

(** A word with a character that [str.lower] changes is in no text without
    such characters. *)
Lemma cased_word_absent w text :
  Str.any changed_by_lower text = false ->
  Str.any changed_by_lower w = true ->
  Str.isin w text = false.
Proof.
  intros Htext Hw. destruct (Str.isin w text) eqn:E; [|reflexivity].
  rewrite (AnyFacts.any_isin _ _ _ E Hw) in Htext. discriminate.
Qed.

Lemma scan_words_filter (keep : string -> bool) text wordset :
  (forall w, keep w = false -> Str.isin w text = false) ->
  scan_words text wordset = scan_words text (List.filter keep wordset).
Proof.
  intros Hdrop. induction wordset as [|x rest IH]; [reflexivity|].
  cbn [scan_words List.filter]. destruct (keep x) eqn:E.
  - cbn [scan_words]. now rewrite IH.
  - now rewrite (Hdrop x E).
Qed.

Lemma scan_verbatim_filter_keep (keep : string -> bool) text wordset :
  (forall w, keep w = false -> Str.isin w text = false) ->
  scan_verbatim text wordset = scan_verbatim text (List.filter keep wordset).
Proof.
  intros Hdrop. induction wordset as [|x rest IH]; [reflexivity|].
  cbn [scan_verbatim List.filter]. destruct (keep x) eqn:E.
  - cbn [scan_verbatim]. now rewrite IH.
  - rewrite (Hdrop x E). now destruct (_ <? _).
Qed.

Lemma first_check_ext f g ks :
  (forall k, f k = g k) -> first_check f ks = first_check g ks.
Proof.
  intros H. induction ks as [|k ks IH]; [reflexivity|].
  cbn [first_check]. now rewrite H, IH.
Qed.

(** X9: the matcher lowercases the password and not the words: a word of
    the word set that holds a character which [str.lower] changes (a
    capital letter) is never matched, in any stage; dropping all such words
    from the word set changes no verdict and no message. *)
Theorem cased_words_are_dead (pw : string) (wordset : list string) :
  contains_dictionary pw wordset =
  contains_dictionary pw
    (List.filter (fun w => negb (Str.any changed_by_lower w)) wordset).
Proof.
  set (keep := fun w => negb (Str.any changed_by_lower w)).
  assert (forall text, Str.any changed_by_lower text = false ->
            forall w, keep w = false -> Str.isin w text = false) as Hdead.
  { intros text Htext w Hw. apply cased_word_absent; [exact Htext|].
    unfold keep in Hw. now apply negb_false_iff in Hw. }
  pose proof (lower_uncased pw) as Hlow.
  unfold contains_dictionary.
  rewrite <- (scan_verbatim_filter_keep keep) by (apply Hdead, Hlow).
  rewrite <- (scan_words_filter keep)
    by (apply Hdead; now rewrite AnyFacts.any_rev).
  rewrite !scan_leet_spec. unfold leet_stage_spec.
  rewrite (first_check_ext (leet_check wordset (Str.lower pw))
             (leet_check (List.filter keep wordset) (Str.lower pw))); [reflexivity|].
  intros k. unfold leet_check. destruct (_ <=? _); [|reflexivity].
  apply scan_words_filter, Hdead. unfold normalize.
  apply AnyFacts.any_map_false; [exact normalize_char_uncased|].
  destruct (Str.any changed_by_lower (Str.take k (Str.lower pw))) eqn:E; [|reflexivity].
  apply AnyFacts.any_take in E. congruence.
Qed.

Lemma scan_leet_app wordset a : forall normalized leet_changes b,
  scan_leet wordset normalized leet_changes (a +++ b) =
  match scan_leet wordset normalized leet_changes a with
  | Ok (false, _) =>
      scan_leet wordset (normalized +++ normalize a)
        (leet_changes + substitutions a) b
  | found => found
  end.
Proof.
  induction a as [|ch a IH]; intros normalized leet_changes b.
  - cbn [Str.app scan_leet normalize Str.map substitutions].
    now rewrite StrFacts.app_nil_r, Nat.add_0_r.
  - cbn [Str.app scan_leet]. rewrite leet_step_ok. cbn [rbind fst snd].
    assert (forall r,
              r = scan_leet wordset (Str.snoc normalized (normalize_char ch))
                    (leet_changes + (if leet_has ch then 1 else 0)) (a +++ b) ->
              r = match scan_leet wordset (Str.snoc normalized (normalize_char ch))
                          (leet_changes + (if leet_has ch then 1 else 0)) a with
                  | Ok (false, _) =>
                      scan_leet wordset (normalized +++ normalize (String ch a))
                        (leet_changes + substitutions (String ch a)) b
                  | found => found
                  end) as Hrec.
    { intros r ->. rewrite IH. unfold Str.snoc, normalize.
      cbn [Str.map substitutions]. rewrite StrFacts.app_assoc. cbn [Str.app].
      now rewrite Nat.add_assoc. }
    destruct (_ <=? _); [destruct (scan_words _ _)|]; try reflexivity; now apply Hrec.
Qed.

Lemma scan_leet_miss wordset text : forall normalized leet_changes msg,
  scan_leet wordset normalized leet_changes text = Ok (false, msg) -> msg = EmptyString.
Proof.
  induction text as [|ch text IH]; intros normalized leet_changes msg.
  - cbn [scan_leet]. now intros [= <-].
  - cbn [scan_leet]. rewrite leet_step_ok. cbn [rbind fst snd].
    destruct (_ <=? _); [destruct (scan_words _ _)|]; try discriminate; apply IH.
Qed.

Lemma scan_leet_total wordset text : forall normalized leet_changes,
  exists hit msg, scan_leet wordset normalized leet_changes text = Ok (hit, msg).
Proof.
  induction text as [|ch text IH]; intros normalized leet_changes.
  - cbn [scan_leet]. eauto.
  - cbn [scan_leet]. rewrite leet_step_ok. cbn [rbind fst snd].
    destruct (_ <=? _); [destruct (scan_words _ _)|]; eauto.
Qed.

(** X10: the leet walk sees nothing from the third leet character on: when
    a prefix holds exactly 2 leet characters and the next character is a
    leet character too, the walk over the whole password gives what the
    walk over that prefix gives. *)
Theorem leet_walk_stops (wordset : list string) (pre : string) (c : ascii) (rest : string) :
  substitutions pre = MAX_LEET_SUBSTITUTION ->
  leet_has c = true ->
  scan_leet wordset EmptyString 0 (pre +++ String c rest) =
  scan_leet wordset EmptyString 0 pre.
Proof.
  intros Hpre Hc. rewrite scan_leet_app.
  destruct (scan_leet_total wordset pre EmptyString 0) as ([] & msg & H); rewrite H;
    [reflexivity|].
  apply scan_leet_miss in H as Hmsg. subst msg.
  cbn [scan_leet]. rewrite leet_step_ok, Hc. cbn [rbind fst snd].
  assert ((0 + substitutions pre + 1 <=? MAX_LEET_SUBSTITUTION) = false) as ->
    by (apply Nat.leb_gt; lia).
  apply scan_leet_over_budget. lia.
Qed.

Lemma leet_walk_stops_witness :
  scan_leet ["dragon"] EmptyString 0 ("$0" +++ String "!" "-dr4gon") =
  scan_leet ["dragon"] EmptyString 0 "$0".
Proof.
  apply (leet_walk_stops ["dragon"] "$0" "!"%char "-dr4gon");
    vm_compute; reflexivity.
Defined.

(** ** The strength evaluator *)

Lemma too_short_only_length pw wordset found :
  contains_dictionary pw wordset = Ok found ->
  ~ In too_short (dictionary_part found ++ obvious_patterns pw ++ diversity_part pw).
Proof.
  intros Hfound. rewrite !in_app_iff. intros [H|[H|H]].
  - unfold dictionary_part in H. destruct found as [[] msg]; cbn [fst snd] in H; [|destruct H].
    destruct H as [->|[]].
    apply contains_dictionary_hit in Hfound as (w & _ & [H|H]);
      vm_compute in H; discriminate.
  - apply obvious_patterns_forms in H as [H|[chunk H]]; vm_compute in H; discriminate.
  - unfold diversity_part in H. destruct (_ && _); [|destruct H].
    destruct H as [H|[]]. vm_compute in H. discriminate.
Qed.

(** X11: a password is accepted exactly when it has at least 12
    characters, holds no dictionary word (verbatim, reversed or in a
    normalized prefix within the budget), gets no issue from the pattern
    detector, and has at least 3 character classes or at least 20
    characters. *)
Theorem acceptance_criterion (pw : string) (wordset : list string) :
  check_password_strength pw wordset = Ok [] <->
  MIN_LENGTH <= Str.len pw /\
  ~ embedded pw wordset /\
  obvious_patterns pw = [] /\
  (3 <= categories pw \/ 20 <= Str.len pw).
Proof.
  destruct (contains_dictionary_total pw wordset) as (hit & msg & Hfound).
  rewrite (check_password_strength_shape _ _ _ Hfound).
  unfold length_part, dictionary_part, diversity_part. cbn [fst snd].
  assert (hit = true <-> embedded pw wordset) as Hhit.
  { rewrite <- contains_dictionary_hit_iff. split.
    - intros ->. eauto.
    - intros [m Hm]. congruence. }
  destruct (Str.len pw <? MIN_LENGTH) eqn:Hlen.
  { apply Nat.ltb_lt in Hlen. split; [discriminate | intros [H _]; exfalso; lia]. }
  apply Nat.ltb_ge in Hlen. destruct hit.
  { split; [discriminate|]. intros (_ & Hno & _). destruct Hno. now apply Hhit. }
  cbn [List.app]. destruct (obvious_patterns pw) as [|issue more].
  2:{ split; [discriminate|]. intros (_ & _ & H & _). discriminate. }
  cbn [List.app].
  destruct (Nat.ltb_spec (categories pw) 3) as [Hcat|Hcat],
    (Nat.ltb_spec (Str.len pw) 20) as [Hl20|Hl20]; cbn [andb].
  - split; [discriminate | intros (_ & _ & _ & [H|H]); exfalso; lia].
  - split; [|reflexivity]. intros _. repeat split; try lia; try reflexivity.
    intros H%Hhit. discriminate.
  - split; [|reflexivity]. intros _. repeat split; try lia; try reflexivity.
    intros H%Hhit. discriminate.
  - split; [|reflexivity]. intros _. repeat split; try lia; try reflexivity.
    intros H%Hhit. discriminate.
Qed.

(** X12: a password shorter than 12 characters is always rejected, with the
    length reason first; and the length reason is given to no password of
    12 characters or more. *)
Theorem short_password_rule (pw : string) (wordset : list string) :
  exists reasons,
    check_password_strength pw wordset = Ok reasons /\
    (Str.len pw < MIN_LENGTH -> exists more, reasons = too_short :: more) /\
    (In too_short reasons -> Str.len pw < MIN_LENGTH).
Proof.
  destruct (contains_dictionary_total pw wordset) as (hit & msg & Hfound).
  rewrite (check_password_strength_shape _ _ _ Hfound). eexists. split; [reflexivity|].
  pose proof (too_short_only_length _ _ _ Hfound) as Hother.
  unfold length_part. destruct (Str.len pw <? MIN_LENGTH) eqn:Hlen.
  - apply Nat.ltb_lt in Hlen. split; [|auto]. intros _. cbn [List.app]. eauto.
  - apply Nat.ltb_ge in Hlen. split; [lia|]. cbn [List.app]. intros H.
    destruct (Hother H).
Qed.

Lemma embedded_more_words pw ws1 ws2 :
  (forall w, In w ws1 -> In w ws2) -> embedded pw ws1 -> embedded pw ws2.
Proof.
  intros Hsub [(w & Hw & H)|[(w & Hw & H)|(k & w & Hk & Hs & Hw & H)]];
    apply Hsub in Hw; unfold embedded.
  - left. exists w. auto.
  - right. left. exists w. auto.
  - right. right. exists k, w. auto.
Qed.

(** X13: more dictionary words never accept more: a password accepted with
    a word set is accepted with every word set that holds no other words,
    whatever the order and the repetitions. *)
Theorem fewer_words_accept_more (pw : string) (ws1 ws2 : list string) :
  (forall w, In w ws1 -> In w ws2) ->
  check_password_strength pw ws2 = Ok [] ->
  check_password_strength pw ws1 = Ok [].
Proof.
  intros Hsub H2.
  destruct (contains_dictionary_total pw ws1) as (hit1 & msg1 & H1).
  destruct (contains_dictionary_total pw ws2) as (hit2 & msg2 & Hf2).
  rewrite (check_password_strength_shape _ _ _ Hf2) in H2.
  rewrite (check_password_strength_shape _ _ _ H1).
  assert (hit1 = false) as ->.
  { destruct hit1; [|reflexivity]. exfalso.
    assert (embedded pw ws2) as He.
    { eapply embedded_more_words; [exact Hsub|]. apply contains_dictionary_hit_iff. eauto. }
    apply contains_dictionary_hit_iff in He as [m He].
    rewrite He in Hf2. injection Hf2 as <- <-.
    unfold dictionary_part in H2. cbn [fst snd] in H2.
    destruct (length_part pw); discriminate. }
  assert (hit2 = false) as ->.
  { destruct hit2; [|reflexivity]. unfold dictionary_part in H2. cbn [fst snd] in H2.
    destruct (length_part pw); discriminate. }
  exact H2.
Qed.

Lemma fewer_words_accept_more_witness :
  check_password_strength "Tr7#kVm2q!Zx" ["tiger"] = Ok [].
Proof.
  apply (fewer_words_accept_more "Tr7#kVm2q!Zx" ["tiger"] ["dragon"; "tiger"; "dragon"]).
  - intros w. simpl. tauto.
  - vm_compute. reflexivity.
Defined.

(** ** The dictionary loader *)

Lemma load_word_set_members fs paths words :
  load_word_set fs paths = Ok words ->
  forall w, w ∈ words <->
    exists p lines line,
      In p paths /\ fs p = Lines lines /\ In line lines /\ word_of line w.
Proof.
  intros Hload. unfold load_word_set in Hload.
  pose proof (load_paths_available _ _ _ _ Hload) as Hav.
  destruct (load_paths_spec fs paths ∅ Hav) as (words' & Hload' & Hres).
  rewrite Hload in Hload'. injection Hload' as <-.
  intros w. rewrite Hres. split; [|auto].
  intros [H|H]; [|exact H]. now apply not_elem_of_empty in H.
Qed.

Lemma load_word_set_returns fs paths :
  available fs paths -> exists words, load_word_set fs paths = Ok words.
Proof.
  intros Hav. unfold load_word_set.
  destruct (load_paths_spec fs paths ∅ Hav) as (words & -> & _). eauto.
Qed.

Lemma load_word_set_available fs paths words :
  load_word_set fs paths = Ok words -> available fs paths.
Proof. apply load_paths_available. Qed.

(** X14: the set that the loader returns depends on which paths are given
    and not on their order or their repetitions; and the set loaded from
    two lists of paths, one after the other, is the union of the sets
    loaded from each. *)
Theorem loader_composes :
  (forall fs paths paths' words,
     (forall p, In p paths <-> In p paths') ->
     load_word_set fs paths = Ok words ->
     load_word_set fs paths' = Ok words) /\
  (forall fs paths1 paths2 words1 words2,
     load_word_set fs paths1 = Ok words1 ->
     load_word_set fs paths2 = Ok words2 ->
     load_word_set fs (paths1 ++ paths2) = Ok (words1 ∪ words2)).
Proof.
  split.
  - intros fs paths paths' words Hsame Hload.
    assert (available fs paths') as Hav'.
    { intros p code Hp. apply (load_word_set_available _ _ _ Hload). now apply Hsame. }
    destruct (load_word_set_returns _ _ Hav') as [words' Hload'].
    rewrite Hload'. f_equal. apply set_eq. intros w.
    rewrite (load_word_set_members _ _ _ Hload), (load_word_set_members _ _ _ Hload').
    split; intros (p & lines & line & Hp & H); exists p, lines, line;
      (split; [now apply Hsame | exact H]).
  - intros fs paths1 paths2 words1 words2 H1 H2.
    assert (available fs (paths1 ++ paths2)) as Hav.
    { intros p code [Hp|Hp]%in_app_iff.
      - now apply (load_word_set_available _ _ _ H1).
      - now apply (load_word_set_available _ _ _ H2). }
    destruct (load_word_set_returns _ _ Hav) as [words Hload].
    rewrite Hload. f_equal. apply set_eq. intros w.
    rewrite elem_of_union, (load_word_set_members _ _ _ Hload),
      (load_word_set_members _ _ _ H1), (load_word_set_members _ _ _ H2).
    split.
    + intros (p & lines & line & [Hp|Hp]%in_app_iff & H); [left | right];
        exists p, lines, line; auto.
    + intros [(p & lines & line & Hp & H)|(p & lines & line & Hp & H)];
        exists p, lines, line; (split; [apply in_app_iff; auto | exact H]).
Qed.

Lemma loader_composes_witness :
  load_word_set sample_files
    ["/root/words"; "/usr/share/dict/cracklib-small"; "/root/words";
     "/usr/share/dict/words"] = Ok sample_words.
Proof.
  apply (proj1 loader_composes sample_files sample_paths _ sample_words).
  - intros p. unfold sample_paths. cbn [In]. tauto.
  - vm_compute. reflexivity.
Defined.

(** X15: a source that fails with an error other than "missing" or "denied"
    ends the load: when the sources before it are readable, missing or
    denied, the loader raises the error of that source, whatever comes
    after it, and no word of the earlier sources is returned. *)
Theorem loader_first_failure (fs : string -> source) (before after : list string)
    (p : string) (code : errno) :
  available fs before ->
  fs p = OpenFails code ->
  loader_catches (os_error code p) = false ->
  load_word_set fs (before ++ p :: after) = Raise (os_error code p).
Proof.
  intros Hav Hp Hcatch. unfold load_word_set. generalize (∅ : gset string).
  induction before as [|q before IH]; intros words.
  - cbn [List.app load_paths]. unfold open. now rewrite Hp, Hcatch.
  - assert (available fs before) as Hav' by (intros r c Hr; apply Hav; now right).
    cbn [List.app load_paths]. unfold open.
    destruct (fs q) as [lines|c] eqn:E.
    + now apply IH.
    + rewrite (Hav q c (or_introl eq_refl) E). now apply IH.
Qed.

Lemma contains_dictionary_no_words pw :
  contains_dictionary pw [] = Ok (false, EmptyString).
Proof.
  destruct (contains_dictionary_total pw []) as ([] & msg & H).
  - apply contains_dictionary_hit in H as (w & [] & _).
  - rewrite H. now apply contains_dictionary_miss in H as ->.
Qed.

Lemma loader_first_failure_witness :
  load_word_set files_with_directory
    (["/usr/share/dict/cracklib-small"; "/root/words"] ++
     "/usr/share/dict" :: ["/usr/share/dict/words"]) =
  Raise (os_error EISDIR "/usr/share/dict").
Proof.
  apply (loader_first_failure files_with_directory
           ["/usr/share/dict/cracklib-small"; "/root/words"]
           ["/usr/share/dict/words"] "/usr/share/dict" EISDIR).
  - intros p code [<-|[<-|[]]]; vm_compute; intros [= <-]; reflexivity.
  - reflexivity.
  - reflexivity.
Defined.

(** X16: when no source of the list is readable, all being missing or
    denied, the loader returns the empty set without any error, and the
    dictionary check then passes every password. *)
Theorem loader_without_sources (fs : string -> source) (paths : list string) :
  (forall p, In p paths -> fs p = OpenFails ENOENT \/ fs p = OpenFails EACCES) ->
  load_word_set fs paths = Ok ∅ /\
  forall pw, contains_dictionary pw (elements (∅ : gset string)) = Ok (false, EmptyString).
Proof.
  intros Hnone. split;
    [|intros pw; rewrite elements_empty; apply contains_dictionary_no_words].
  assert (available fs paths) as Hav.
  { intros p code Hp Hfs. destruct (Hnone p Hp) as [H|H];
      rewrite H in Hfs; injection Hfs as <-; reflexivity. }
  destruct (load_word_set_returns _ _ Hav) as [words Hload].
  rewrite Hload. f_equal. apply set_eq. intros w.
  rewrite (load_word_set_members _ _ _ Hload). split.
  - intros (p & lines & line & Hp & Hfs & _).
    destruct (Hnone p Hp) as [H|H]; rewrite H in Hfs; discriminate.
  - intros H. now apply not_elem_of_empty in H.
Qed.

Lemma loader_without_sources_witness :
  load_word_set no_files DEFAULT_DICT_FILES = Ok ∅ /\
  forall pw, contains_dictionary pw (elements (∅ : gset string)) = Ok (false, EmptyString).
Proof.
  apply (loader_without_sources no_files DEFAULT_DICT_FILES).
  intros p _. left. reflexivity.
Defined.

(** X17: the word set that the loader builds holds no word that the
    verbatim stage passes over: for every enumeration of words of a loaded
    set the verbatim stage is the plain scan over all of them, and the
    empty word is not among them. *)
Theorem loaded_words_all_tested (fs : string -> source) (paths : list string)
    (words : gset string) (wordset : list string) (lower : string) :
  load_word_set fs paths = Ok words ->
  (forall w, In w wordset -> w ∈ words) ->
  scan_verbatim lower wordset = scan_words lower wordset /\
  ~ In EmptyString wordset.
Proof.
  intros Hload Hsub.
  assert (forall w, In w wordset -> MIN_DICT_WORD_LEN <= Str.len w) as Hlen.
  { intros w Hw%Hsub. apply (load_word_set_members _ _ _ Hload) in Hw
      as (_ & _ & _ & _ & _ & _ & _ & H). exact H. }
  split.
  - clear Hsub. induction wordset as [|x rest IH]; [reflexivity|].
    cbn [scan_verbatim scan_words].
    assert ((Str.len x <? MIN_DICT_WORD_LEN) = false) as ->.
    { apply Nat.ltb_ge, Hlen. now left. }
    rewrite IH; [reflexivity|]. intros w Hw. apply Hlen. now right.
  - intros H%Hlen. cbn in H. unfold MIN_DICT_WORD_LEN in H. lia.
Qed.

Lemma loaded_words_all_tested_witness :
  scan_verbatim "my-dragon-77" ["password"; "dragon"] =
    scan_words "my-dragon-77" ["password"; "dragon"] /\
  ~ In EmptyString ["password"; "dragon"].
Proof.
  apply (loaded_words_all_tested sample_files sample_paths sample_words).
  - vm_compute. reflexivity.
  - intros w [<-|[<-|[]]]; unfold sample_words; set_solver.
Defined.

(** ** The session *)

Lemma in_trace_emit e e' w :
  In e (trace (emit e' w)) <-> In e (trace w) \/ e = e'.
Proof.
  unfold emit. cbn [trace]. rewrite in_app_iff. cbn [In]. split.
  - intros [H|[H|[]]]; auto.
  - intros [H|H]; auto.
Qed.

Lemma spawn_print_reasons argv input reasons : forall w,
  In (Spawn argv input) (trace (print_reasons reasons w)) ->
  In (Spawn argv input) (trace w).
Proof.
  unfold print_reasons.
  induction reasons as [|r rs IH]; intros w; cbn [fold_left]; [auto|].
  intros H%IH. apply in_trace_emit in H as [H|H]; [exact H | discriminate].
Qed.

Ltac drop_emit H :=
  repeat (apply in_trace_emit in H as [H|H]; [|try discriminate H]).

(** X18: the loop hands to the applier only passwords that were typed
    twice in a row and that the evaluator accepts: with an applier that
    leaves a record of each password it is given, every record that a
    session adds is of a password with no rejection reason that stands
    twice in a row among the typed lines. *)
Theorem only_accepted_applied (answer : string -> bool) (wordset : list string)
    (tty : list string) :
  forall w argv input,
    In (Spawn argv input)
       (trace (snd (main_loop (recording_applier answer) wordset tty w))) ->
    In (Spawn argv input) (trace w) \/
    (check_password_strength input wordset = Ok [] /\
     exists before after, tty = before ++ input :: input :: after).
Proof.
  assert (forall (x y : string) rest input,
            (exists before after, rest = before ++ input :: input :: after) ->
            exists before after, x :: y :: rest = before ++ input :: input :: after)
    as Hlater.
  { intros x y rest input (before & after & ->).
    exists (x :: y :: before), after. reflexivity. }
  induction tty as [|x|x y rest IH] using pair_induction;
    intros w argv input; cbn [main_loop snd].
  - intros H. drop_emit H. auto.
  - intros H. drop_emit H. auto.
  - destruct (String.eqb x y) eqn:Exy; cbn [negb].
    2:{ intros [H|[Hc Hin]]%IH; [|right; split; [exact Hc | now apply (Hlater x y rest)]].
        drop_emit H. auto. }
    apply String.eqb_eq in Exy. subst y.
    destruct (check_password_strength x wordset) as [[|r rs]|e] eqn:Hcheck; cbn [snd].
    + unfold recording_applier at 1. destruct (answer x); cbn [snd].
      * intros H. apply in_trace_emit in H as [H|H]; [|discriminate H].
        apply in_trace_emit in H as [H|H].
        -- drop_emit H. auto.
        -- injection H as _ ->. right. split; [exact Hcheck|].
           exists [], rest. reflexivity.
      * intros [H|[Hc Hin]]%IH;
          [|right; split; [exact Hc | now apply (Hlater x x rest)]].
        apply in_trace_emit in H as [H|H]; [|discriminate H].
        apply in_trace_emit in H as [H|H].
        -- drop_emit H. auto.
        -- injection H as _ ->. right. split; [exact Hcheck|].
           exists [], rest. reflexivity.
    + intros [H|[Hc Hin]]%IH;
        [|right; split; [exact Hc | now apply (Hlater x x rest)]].
      apply in_trace_emit in H as [H|H]; [|discriminate H].
      apply spawn_print_reasons in H. drop_emit H. auto.
    + intros H. drop_emit H. auto.
Qed.

Lemma only_accepted_applied_witness :
  In (Spawn ["passwd"] "Tr7#kVm2q!Zx") [] \/
  (check_password_strength "Tr7#kVm2q!Zx" [] = Ok [] /\
   exists before after,
     ["qwerty"; "qwerty"; "Tr7#kVm2q!Zx"; "Tr7#kVm2q!Zx"] =
     before ++ "Tr7#kVm2q!Zx" :: "Tr7#kVm2q!Zx" :: after).
Proof.
  apply (only_accepted_applied (fun _ => true) []
           ["qwerty"; "qwerty"; "Tr7#kVm2q!Zx"; "Tr7#kVm2q!Zx"]
           (World false no_files [])).
  vm_compute. tauto.
Defined.

(** X19: a word list that cannot be opened for another reason than being
    missing or denied (a directory at its path) ends [main] before the
    first prompt, with the error of [open], whatever the applier and the
    typed lines; when the word list is readable, missing or denied, [main]
    with the applier of the source prompts and ends with [EOFError] when
    the typed lines run out. *)
Theorem main_needs_openable_dictionary :
  (forall set_iter applier tty w,
     marker_exists w = false ->
     files w "/usr/share/dict/cracklib-small" = OpenFails EISDIR ->
     main_with set_iter applier tty w =
     (Raise (IsADirectoryError "/usr/share/dict/cracklib-small"),
      fold_left (fun w s => emit (Print s) w) banner w)) /\
  (forall subprocess_run set_iter tty w,
     marker_exists w = false ->
     available (files w) DEFAULT_DICT_FILES ->
     fst (main subprocess_run set_iter tty w) = Raise EOFError).
Proof.
  split.
  - intros set_iter applier tty w Hm Hfs. unfold main_with. rewrite Hm.
    unfold load_word_set, DEFAULT_DICT_FILES. cbn [load_paths fold_left banner emit files].
    unfold open. rewrite Hfs. reflexivity.
  - intros subprocess_run set_iter tty w Hm Hav. unfold main, main_with. rewrite Hm.
    change (files (fold_left (fun w s => emit (Print s) w) banner w)) with (files w).
    destruct (load_word_set_returns _ _ Hav) as [words ->].
    apply main_loop_never_succeeds.
Qed.

Lemma main_needs_openable_dictionary_witness :
  fst (main (fun _ _ => Raise EOFError) elements ["abc"; "abc"] fresh_device) =
  Raise EOFError.
Proof.
  apply (proj2 main_needs_openable_dictionary).
  - reflexivity.
  - intros p code [<-|[]]. vm_compute. intros [= <-]. reflexivity.
Defined.
